(** * BMAD workflow engine, state store and party-mode orchestrator

    A shallow embedding of three modules of the repository:

    - [bmad_state.py]   (class [WorkflowStateManager])  -> [Module BmadState]
    - [bmad_engine.py]  (class [WorkflowEngine])        -> [Module BmadEngine]
    - [multi_agent_orchestrator.py]
        (class [MultiAgentOrchestrator])                -> [Module PartyMode]

    and of the front-matter parser of [bmad_engine.py] ([Module Frontmatter]).

    Python dictionaries read from JSON become records whose fields are
    options (a key may be missing), the state directory becomes a finite map
    from workflow names to file contents, Python list objects that are shared
    between caller and callee live in an explicit heap, and everything that
    talks to the outside (the agent session, the clock, the workflow files)
    is threaded through a small state-and-exception monad. *)

From stdpp Require Import gmap strings list pretty sorting.

Open Scope string_scope.
Open Scope list_scope.
Open Scope nat_scope.

(** ** Strings *)

(** The one-character string holding a line feed: Python's ["\n"]. *)
Definition nl : string := String (Ascii.ascii_of_nat 10) "".

(** [sep.join(lines)]. *)
Definition join (sep : string) (lines : list string) : string :=
  String.concat sep lines.

(** [str(x)] for an optional string: [None] prints as the word None. *)
Definition str_opt (o : option string) : string :=
  match o with Some s => s | None => "None" end.

(** ** A state-and-exception monad

    [M W A] is a computation over a world [W] that either returns an [A] or
    raises an exception carrying its [str()]; the world it leaves behind is
    kept in both cases, as the side effects of a Python call are. *)

Inductive outcome (A : Type) : Type :=
| Ret (a : A)
| Raise (e : string).
Arguments Ret {A} a.
Arguments Raise {A} e.

Definition M (W A : Type) : Type := W -> outcome A * W.

Definition m_ret {W A} (a : A) : M W A := fun w => (Ret a, w).

Definition m_bind {W A B} (c : M W A) (k : A -> M W B) : M W B :=
  fun w => match c w with
           | (Ret a, w') => k a w'
           | (Raise e, w') => (Raise e, w')
           end.

(** [try: c  except Exception as e: h e]. *)
Definition try_except {W A} (c : M W A) (h : string -> M W A) : M W A :=
  fun w => match c w with
           | (Ret a, w') => (Ret a, w')
           | (Raise e, w') => h e w'
           end.

Definition m_raise {W A} (e : string) : M W A := fun w => (Raise e, w).
Definition gets {W A} (f : W -> A) : M W A := fun w => (Ret (f w), w).
Definition modify {W} (f : W -> W) : M W unit := fun w => (Ret tt, f w).

(** [if cond: c]. *)
Definition when {W} (cond : bool) (c : M W unit) : M W unit :=
  if cond then c else m_ret tt.

Declare Scope m_scope.
Delimit Scope m_scope with m.
Notation "x <- c ;; k" := (m_bind c (fun x => k))
  (at level 100, c at next level, right associativity) : m_scope.
Notation "c ;;; k" := (m_bind c (fun _ => k))
  (at level 100, right associativity) : m_scope.

(** [for x in xs: body x]. *)
Fixpoint for_each {W A} (xs : list A) (body : A -> M W unit) : M W unit :=
  match xs with
  | [] => m_ret tt
  | x :: xs' => m_bind (body x) (fun _ => for_each xs' body)
  end.

(** [[f x for x in xs]], the calls made left to right. *)
Fixpoint map_m {W A B} (f : A -> M W B) (xs : list A) : M W (list B) :=
  match xs with
  | [] => m_ret []
  | x :: xs' =>
      m_bind (f x) (fun y => m_bind (map_m f xs') (fun ys => m_ret (y :: ys)))
  end.

(** [c] never raises: from every world it returns a value. *)
Definition returns {W A} (c : M W A) : Prop :=
  ∀ w, ∃ a w', c w = (Ret a, w').

(** * bmad_state.py: the state store *)

Module BmadState.

(** The reading of [datetime.now().isoformat()]: a tick of a logical clock
    that advances at every reading. *)
Definition Timestamp : Type := nat.

(** The state dictionary.  Every key of the JSON object is optional, as it is
    for [state.get(..)] and ["stepsCompleted" not in state]. *)
Record State : Type := mkState {
  status : option string;
  stepsCompleted : option (list string);
  currentStep : option Z;
  startedAt : option Timestamp;
  completedAt : option Timestamp;
  failedAt : option Timestamp;
  lastUpdated : option Timestamp;
  lastError : option string;
  failedAtStep : option Z
}.

(** What [_bmad-output/.workflow-state/<name>.json] holds: something
    [json.load] rejects, or a state dictionary. *)
Inductive File : Type :=
| Corrupt
| Json (s : State).

(** The state directory and the clock.  Writing is assumed to succeed (the
    directory is created by [__init__]); [save_state] then returns [True]. *)
Record Disk : Type := mkDisk {
  files : gmap string File;
  clock : nat
}.

Definition empty_disk : Disk := {| files := ∅; clock := 0 |}.

(** [datetime.now().isoformat()] *)
Definition now (d : Disk) : Timestamp * Disk :=
  (clock d, {| files := files d; clock := S (clock d) |}).

Definition default_state : State :=
  {| status := Some "not_started";
     stepsCompleted := Some [];
     currentStep := Some 0%Z;
     startedAt := None; completedAt := None; failedAt := None;
     lastUpdated := None; lastError := None; failedAtStep := None |}.

Definition get_state (d : Disk) (workflow_name : string) : State :=
  match files d !! workflow_name with
  | None => default_state                 (* not state_file.exists() *)
  | Some Corrupt => default_state         (* except Exception *)
  | Some (Json s) => s
  end.

Definition save_state (workflow_name : string) (state : State) (d : Disk)
  : bool * Disk :=
  (true, {| files := <[workflow_name := Json state]> (files d);
            clock := clock d |}).

Definition mark_step_complete (workflow_name step_name : string) (d : Disk)
  : bool * Disk :=
  let state := get_state d workflow_name in
  (* Initialize if needed *)
  let steps0 := match stepsCompleted state with
                | None => []
                | Some l => l
                end in
  (* Add step if not already completed *)
  let steps1 := if bool_decide (step_name ∈@{list string} steps0) then steps0
                else steps0 ++ [step_name] in
  (* Update status and timestamps *)
  let '(status1, startedAt1, d1) :=
    if bool_decide (status state = Some "not_started") then
      let '(t, d') := now d in (Some "in_progress", Some t, d')
    else (status state, startedAt state, d) in
  let '(t2, d2) := now d1 in
  save_state workflow_name
    {| status := status1;
       stepsCompleted := Some steps1;
       currentStep := Some (Z.of_nat (length steps1));
       startedAt := startedAt1;
       completedAt := completedAt state;
       failedAt := failedAt state;
       lastUpdated := Some t2;
       lastError := lastError state;
       failedAtStep := failedAtStep state |} d2.

Definition mark_workflow_complete (workflow_name : string) (d : Disk)
  : bool * Disk :=
  let state := get_state d workflow_name in
  let '(t1, d1) := now d in
  let '(t2, d2) := now d1 in
  save_state workflow_name
    {| status := Some "completed";
       stepsCompleted := stepsCompleted state;
       currentStep := currentStep state;
       startedAt := startedAt state;
       completedAt := Some t1;
       failedAt := failedAt state;
       lastUpdated := Some t2;
       lastError := lastError state;
       failedAtStep := failedAtStep state |} d2.

Definition mark_workflow_failed (workflow_name error : string)
    (step_num : option Z) (d : Disk) : bool * Disk :=
  let state := get_state d workflow_name in
  let '(t1, d1) := now d in
  let '(t2, d2) := now d1 in
  save_state workflow_name
    {| status := Some "failed";
       stepsCompleted := stepsCompleted state;
       currentStep := currentStep state;
       startedAt := startedAt state;
       completedAt := completedAt state;
       failedAt := Some t1;
       lastUpdated := Some t2;
       lastError := Some error;
       failedAtStep := match step_num with
                       | Some n => Some n
                       | None => failedAtStep state
                       end |} d2.

Definition reset_workflow (workflow_name : string) (d : Disk) : bool * Disk :=
  (true, {| files := delete workflow_name (files d); clock := clock d |}).

(** The state dictionaries of the files that parse, in the order of their
    names, each with the name of its workflow (the key [workflow_name] the
    method adds). *)
Definition list_workflows (d : Disk) : list (string * State) :=
  omap (fun '(workflow_name, f) =>
          match f with
          | Json s => Some (workflow_name, s)
          | Corrupt => None
          end)
       (merge_sort (fun a b => Is_true (String.leb a.1 b.1))
          (map_to_list (files d))).



(** The steps recorded as completed, [state.get("stepsCompleted", [])]. *)
Definition completed_steps (d : Disk) (workflow_name : string) : list string :=
  match stepsCompleted (get_state d workflow_name) with
  | Some l => l
  | None => []
  end.

(** What [mark_step_complete] makes of the list of completed steps. *)
Definition add_step (step_name : string) (l : list string) : list string :=
  if bool_decide (step_name ∈ l) then l else l ++ [step_name].

(** The same for several steps marked one after the other. *)
Definition add_steps (l : list string) (names : list string) : list string :=
  foldl (fun acc step_name => add_step step_name acc) l names.

(** What a record says about a failure. *)
Definition failure_record (s : State)
  : option string * option Z * option Timestamp :=
  (lastError s, failedAtStep s, failedAt s).

(** [d'] holds no more trace of a failure of the workflow than [d] did: the
    failure fields are the same, and the status is the one of [d] unless it
    moved to in-progress. *)
Definition no_failure_recorded (d d' : Disk) (workflow_name : string) : Prop :=
  failure_record (get_state d' workflow_name)
  = failure_record (get_state d workflow_name)
  ∧ (status (get_state d' workflow_name) = Some "in_progress"
     ∨ status (get_state d' workflow_name)
       = status (get_state d workflow_name)).

(** *** Sequences of store operations *)

Inductive Op : Type :=
| OpGetState (key : string)
| OpSaveState (key : string) (state : State)
| OpMarkStepComplete (key step_name : string)
| OpMarkWorkflowComplete (key : string)
| OpMarkWorkflowFailed (key error : string) (step_num : option Z)
| OpResetWorkflow (key : string)
| OpListWorkflows
| OpGetResumePoint (key : string)
| OpCanResume (key : string).

Definition run_op (d : Disk) (op : Op) : Disk :=
  match op with
  | OpGetState _ | OpListWorkflows | OpGetResumePoint _ | OpCanResume _ => d
  | OpSaveState k s => snd (save_state k s d)
  | OpMarkStepComplete k s => snd (mark_step_complete k s d)
  | OpMarkWorkflowComplete k => snd (mark_workflow_complete k d)
  | OpMarkWorkflowFailed k e n => snd (mark_workflow_failed k e n d)
  | OpResetWorkflow k => snd (reset_workflow k d)
  end.

Definition run_ops (ops : list Op) (d : Disk) : Disk := foldl run_op d ops.

(** [currentStep == len(stepsCompleted)], as a test on a record. *)
Definition step_count_ok (s : State) : bool :=
  match stepsCompleted s, currentStep s with
  | Some l, Some n => bool_decide (n = Z.of_nat (length l))
  | _, _ => false
  end.

(** The records an operation writes from its argument, not from a read. *)
Definition op_record_ok (op : Op) : bool :=
  match op with
  | OpSaveState _ s => step_count_ok s
  | _ => true
  end.



(** Every state dictionary on the disk passes [step_count_ok]. *)
Definition disk_ok (d : Disk) : Prop :=
  ∀ k s, files d !! k = Some (Json s) → step_count_ok s = true.

End BmadState.

(** * bmad_engine.py: the workflow execution engine *)

Module WorkflowStep.
Record t : Type := mk {
  file : string;
  name : string;
  agent : string;
  content : option string
}.
End WorkflowStep.

(** One entry of a workflow's declared [outputs]. *)
Module OutputDef.
Record t : Type := mk {
  path : string;
  description : option string
}.
End OutputDef.

(** The dataclass [Workflow] ([dependencies], which the engine never reads,
    is left out). *)
Module Workflow.
Record t : Type := mk {
  name : string;
  description : string;
  phase : string;
  path : string;
  steps : list WorkflowStep.t;
  agent : option string;
  category : option string;
  outputs : option (list OutputDef.t)
}.
End Workflow.

Module StepResult.
Record t : Type := mk {
  status : string;   (* "success", "failed" *)
  output : option string;
  error : option string
}.
End StepResult.

(** What [_collect_outputs] records for a declared output that exists. *)
Module OutputInfo.
Record t : Type := mk {
  exists_ : bool;
  size : nat;
  description : string
}.
End OutputInfo.

Module WorkflowResult.
Record t : Type := mk {
  status : string;   (* "success", "failed", "interrupted" *)
  outputs : option (gmap string OutputInfo.t);
  failed_step : option nat;
  error : option string
}.
End WorkflowResult.

Module BmadEngine.
Import BmadState.

(** Which of the optional callbacks the caller passed
    (["on_step_start" in callbacks], ...). *)
Record Callbacks : Type := mkCallbacks {
  on_step_start : bool;
  on_step_complete : bool;
  on_workflow_complete : bool;
  on_error : bool
}.

(** What a run does that its caller or the outside can observe, in the order
    it happens: the callbacks it fires, each call of [_execute_step], and
    each agent session (client creation and [run_agent_session]). *)
Inductive Event : Type :=
| OnStepStart (step_num : nat) (step_name : string)
| OnStepComplete (step_num : nat) (output : option string)
| OnWorkflowComplete (outputs : gmap string OutputInfo.t)
| OnError (error_msg : string)
| ExecuteStep (step : WorkflowStep.t)
| AgentSession (agent_type message : string).

Record World : Type := mkWorld {
  disk : Disk;
  events : list Event
}.

Definition emit (e : Event) : M World unit :=
  modify (fun w => {| disk := disk w; events := events w ++ [e] |}).

(** A call of a [WorkflowStateManager] method. *)
Definition on_disk {A} (f : Disk -> A * Disk) : M World A :=
  fun w => let '(a, d) := f (disk w) in
           (Ret a, {| disk := d; events := events w |}).

(** [try: x = c  except E as e: return h e] followed by [k x]. *)
Definition try_else {W A B} (c : M W A) (h : string -> M W B) (k : A -> M W B)
  : M W B :=
  fun w => match c w with
           | (Ret a, w') => k a w'
           | (Raise e, w') => h e w'
           end.

(** The steps [_execute_step] was called on, in order. *)
Definition executed (evs : list Event) : list WorkflowStep.t :=
  omap (fun e => match e with ExecuteStep s => Some s | _ => None end) evs.

(** The names of a list of steps. *)
Definition step_names (steps : list WorkflowStep.t) : list string :=
  WorkflowStep.name <$> steps.

(** The events that are callbacks or agent sessions, not step executions. *)
Definition is_callback (e : Event) : bool :=
  match e with ExecuteStep _ => false | _ => true end.






(** [mark_step_complete(workflow_name, step.name)] for each of [steps]. *)
Definition marks (workflow_name : string) (steps : list WorkflowStep.t)
  : list Op :=
  (fun s => OpMarkStepComplete workflow_name (WorkflowStep.name s)) <$> steps.

(** What a sequence of state-manager calls does to the state directory:
    nothing when the engine has no state manager. *)
Definition writes (state_manager : bool) (ops : list Op) (d : Disk) : Disk :=
  if state_manager then run_ops ops d else d.

(** [start_index = len(state.get("stepsCompleted", []))], where [state] is
    [{}] without a state manager. *)
Definition start_index (state_manager : bool) (d : Disk)
    (workflow_name : string) : nat :=
  if state_manager then length (completed_steps d workflow_name) else 0.




Section Engine.

(** [self.state_manager] is set (the import of [bmad_state] succeeded). *)
Variable state_manager : bool.

(** The definition files: [find_workflow] and the parsing of [workflow.md]
    and of the step files, as the workflow they yield for a name. *)
Variable registry : string -> option Workflow.t.

(** The text of [workflow.path / step.file], when that file exists. *)
Variable step_file_text : string -> string -> option string.

(** [create_client] followed by [run_agent_session]: the status tag and the
    response text, or the exception raised.  The answer may depend on
    everything that happened before. *)
Variable run_agent_session :
  list Event -> string -> string -> outcome (string * string).

(** The size of [project_path / path], when that file exists. *)
Variable output_size : string -> option nat.

Definition load_workflow (workflow_name : string) : M World Workflow.t :=
  match registry workflow_name with
  | None => m_raise ("Workflow '" +:+ workflow_name +:+ "' not found")
  | Some workflow => m_ret workflow
  end.

Definition agent_session (agent_type message : string)
  : M World (string * string) :=
  fun w => (run_agent_session (events w) agent_type message,
            {| disk := disk w;
               events := events w ++ [AgentSession agent_type message] |}).

Definition agent_type_mapping (agent : string) : option string :=
  if String.eqb agent "pm" then Some "planner"
  else if String.eqb agent "dev" then Some "coder"
  else if String.eqb agent "tea" then Some "qa_reviewer"
  else if String.eqb agent "architect" then Some "planner"
  else if String.eqb agent "analyst" then Some "planner"
  else if String.eqb agent "ux-designer" then Some "planner"
  else None.

Definition initial_message (workflow : Workflow.t) (step : WorkflowStep.t)
    (step_content : string) : string :=
  "You are executing a BMAD Method workflow step." +:+ nl +:+ nl
  +:+ "**Workflow:** " +:+ Workflow.name workflow +:+ nl
  +:+ "**Step:** " +:+ WorkflowStep.name step +:+ nl
  +:+ "**Your Role:** " +:+ WorkflowStep.agent step +:+ nl +:+ nl
  +:+ step_content +:+ nl +:+ nl
  +:+ "Please follow the instructions in the step carefully. This is a collaborative workflow - ask questions, gather user input, and work interactively to complete this step.".

Definition _execute_step (workflow : Workflow.t) (step : WorkflowStep.t)
  : M World StepResult.t :=
  (emit (ExecuteStep step) ;;;
   match step_file_text (Workflow.path workflow) (WorkflowStep.file step) with
   | None =>
       m_ret (StepResult.mk "failed" None
                (Some ("Step file not found: " +:+ WorkflowStep.file step)))
   | Some step_content =>
       let agent_type :=
         match agent_type_mapping (WorkflowStep.agent step) with
         | Some a => a
         | None => "coder"
         end in
       try_except
         (r <- agent_session agent_type
                 (initial_message workflow step step_content) ;;
          let '(status, response_text) := r in
          if String.eqb status "complete" || String.eqb status "continue"
          then m_ret (StepResult.mk "success" (Some response_text) None)
          else m_ret (StepResult.mk "failed" (Some response_text)
                        (Some ("Agent session ended with status: "
                               +:+ status))))
         (fun e =>
            m_ret (StepResult.mk "failed" None
                     (Some ("Error executing step: " +:+ e))))
   end)%m.

Definition _collect_outputs (workflow : Workflow.t)
    (results : list StepResult.t) : gmap string OutputInfo.t :=
  match Workflow.outputs workflow with
  | None => ∅
  | Some defs =>
      foldl (fun outputs output_def =>
               match output_size (OutputDef.path output_def) with
               | Some sz =>
                   <[OutputDef.path output_def :=
                       OutputInfo.mk true sz
                         (match OutputDef.description output_def with
                          | Some s => s
                          | None => ""
                          end)]> outputs
               | None => outputs
               end) ∅ defs
  end.

(** The body of [for i, step in enumerate(workflow.steps[start_index:],
    start=start_index)]: [inl] is the [return] inside the loop, [inr] the
    results collected when the loop runs to its end. *)
Fixpoint run_steps (workflow_name : string) (workflow : Workflow.t)
    (callbacks : Callbacks) (i : nat) (steps : list WorkflowStep.t)
    (results : list StepResult.t)
  : M World (WorkflowResult.t + list StepResult.t) :=
  match steps with
  | [] => m_ret (inr results)
  | step :: rest =>
      let step_num := i + 1 in
      (when (on_step_start callbacks)
         (emit (OnStepStart step_num (WorkflowStep.name step))) ;;;
       step_result <- _execute_step workflow step ;;
       if String.eqb (StepResult.status step_result) "failed" then
         let error_msg :=
           "Step " +:+ pretty step_num +:+ " failed: "
           +:+ str_opt (StepResult.error step_result) in
         (when (on_error callbacks) (emit (OnError error_msg)) ;;;
          m_ret (inl (WorkflowResult.mk "failed" None (Some step_num)
                        (StepResult.error step_result))))
       else
         (when state_manager
            (_ <- on_disk (mark_step_complete workflow_name
                             (WorkflowStep.name step)) ;; m_ret tt) ;;;
          when (on_step_complete callbacks)
            (emit (OnStepComplete step_num (StepResult.output step_result))) ;;;
          run_steps workflow_name workflow callbacks (S i) rest
            (results ++ [step_result])))%m
  end.

(** [state = {}]: the dictionary with no key. *)
Definition empty_dict : State :=
  {| status := None; stepsCompleted := None; currentStep := None;
     startedAt := None; completedAt := None; failedAt := None;
     lastUpdated := None; lastError := None; failedAtStep := None |}.

Definition execute_workflow (workflow_name : string) (callbacks : Callbacks)
  : M World WorkflowResult.t :=
  try_else (load_workflow workflow_name)
    (fun e =>
       (when (on_error callbacks) (emit (OnError e)) ;;;
        m_ret (WorkflowResult.mk "failed" None None (Some e)))%m)
    (fun workflow =>
       (* Get workflow state (if state manager available) *)
       (state <- (if state_manager
                  then gets (fun w => get_state (disk w) workflow_name)
                  else m_ret empty_dict) ;;
        (* Resume from last completed step *)
        let completed_steps :=
          match stepsCompleted state with Some l => l | None => [] end in
        let start_index := length completed_steps in
        r <- run_steps workflow_name workflow callbacks start_index
               (drop start_index (Workflow.steps workflow)) [] ;;
        match r with
        | inl result => m_ret result
        | inr results =>
            (* Mark workflow complete *)
            when state_manager
              (_ <- on_disk (mark_workflow_complete workflow_name) ;;
               m_ret tt) ;;;
            let outputs := _collect_outputs workflow results in
            when (on_workflow_complete callbacks)
              (emit (OnWorkflowComplete outputs)) ;;;
            m_ret (WorkflowResult.mk "success" (Some outputs) None None)
        end)%m).

End Engine.

End BmadEngine.

(** * multi_agent_orchestrator.py: party mode *)

Module AgentContribution.
Record t : Type := mk {
  agent_type : string;
  agent_name : string;
  round_num : Z;
  content : string;
  timestamp : nat
}.
End AgentContribution.

Module PartyModeResult.
Record t : Type := mk {
  discussion_history : list AgentContribution.t;
  synthesis : string;
  status : string   (* "success", "failed" *)
}.
End PartyModeResult.

(** One entry of [AGENT_PERSONAS]. *)
Module Persona.
Record t : Type := mk {
  name : string;
  role : string;
  style : option string
}.
End Persona.

(** What one agent session is given: the client's agent type, the directory
    it works in, and the message. *)
Module Invocation.
Record t : Type := mk {
  agent_type : string;
  spec_dir : string;
  message : string
}.
End Invocation.

Module PartyMode.

(** *** Python string methods, on ASCII text *)

Definition is_lower (c : Ascii.ascii) : bool :=
  let n := Ascii.nat_of_ascii c in (97 <=? n)%nat && (n <=? 122)%nat.
Definition is_upper (c : Ascii.ascii) : bool :=
  let n := Ascii.nat_of_ascii c in (65 <=? n)%nat && (n <=? 90)%nat.
Definition to_upper (c : Ascii.ascii) : Ascii.ascii :=
  if is_lower c then Ascii.ascii_of_nat (Ascii.nat_of_ascii c - 32) else c.
Definition to_lower (c : Ascii.ascii) : Ascii.ascii :=
  if is_upper c then Ascii.ascii_of_nat (Ascii.nat_of_ascii c + 32) else c.

(** [s.title()]: a letter that follows a letter is lowered, any other letter
    is raised. *)
Fixpoint title_from (previous_is_cased : bool) (s : string) : string :=
  match s with
  | EmptyString => EmptyString
  | String c s' =>
      if is_lower c || is_upper c then
        String (if previous_is_cased then to_lower c else to_upper c)
          (title_from true s')
      else String c (title_from false s')
  end.
Definition title (s : string) : string := title_from false s.

Definition is_space (c : Ascii.ascii) : bool :=
  let n := Ascii.nat_of_ascii c in
  ((9 <=? n)%nat && (n <=? 13)%nat) || ((28 <=? n)%nat && (n <=? 32)%nat).

Fixpoint lstrip (s : string) : string :=
  match s with
  | EmptyString => EmptyString
  | String c s' => if is_space c then lstrip s' else s
  end.

Fixpoint rstrip (s : string) : string :=
  match s with
  | EmptyString => EmptyString
  | String c s' =>
      let r := rstrip s' in
      if is_space c && String.eqb r "" then "" else String c r
  end.

(** [s.strip()] *)
Definition strip (s : string) : string := rstrip (lstrip s).

(** *** The world: a heap of list objects, the session log, the clock

    [discussion_history] is one list object that [run_party_mode] hands to
    the round functions, which may append to it; a list is therefore a
    location in [heap] (its index), and whoever holds the location sees every
    append.  A location is only ever obtained from [new_list], so it is
    always in range; out of range a read yields the empty list and a write
    does nothing. *)

Abbreviation loc := nat (only parsing).

Record World : Type := mkWorld {
  heap : list (list AgentContribution.t);
  calls : list Invocation.t;
  clock : nat
}.


Definition read (w : World) (l : loc) : list AgentContribution.t :=
  match heap w !! l with Some xs => xs | None => [] end.

(** [xs = list(init)] *)
Definition new_list (init : list AgentContribution.t) : M World loc :=
  fun w => (Ret (length (heap w)),
            {| heap := heap w ++ [init]; calls := calls w; clock := clock w |}).

Definition list_read (l : loc) : M World (list AgentContribution.t) :=
  gets (fun w => read w l).

(** [l.append(x)] *)
Definition list_append (l : loc) (x : AgentContribution.t) : M World unit :=
  modify (fun w => {| heap := <[l := read w l ++ [x]]> (heap w);
                      calls := calls w; clock := clock w |}).

(** [l.extend(src)] *)
Definition list_extend (l src : loc) : M World unit :=
  modify (fun w => {| heap := <[l := read w l ++ read w src]> (heap w);
                      calls := calls w; clock := clock w |}).

(** [datetime.now().isoformat()] *)
Definition now : M World nat :=
  fun w => (Ret (clock w),
            {| heap := heap w; calls := calls w; clock := S (clock w) |}).

(** *** The context an agent is given *)

Definition AGENT_PERSONAS (agent_type : string) : option Persona.t :=
  if String.eqb agent_type "pm"
  then Some (Persona.mk "John" "Product Manager" (Some "product-focused"))
  else if String.eqb agent_type "architect"
  then Some (Persona.mk "Winston" "Solutions Architect"
               (Some "technical-depth"))
  else if String.eqb agent_type "dev"
  then Some (Persona.mk "Amelia" "Developer" (Some "practical"))
  else if String.eqb agent_type "tea"
  then Some (Persona.mk "Murat" "Test Engineer & Architect"
               (Some "quality-focused"))
  else if String.eqb agent_type "sm"
  then Some (Persona.mk "Sarah" "Scrum Master" (Some "process-oriented"))
  else None.

Definition persona_of (agent_type : string) : Persona.t :=
  match AGENT_PERSONAS agent_type with
  | Some p => p
  | None => Persona.mk (title agent_type) agent_type None
  end.

Definition agent_type_mapping (agent_type : string) : option string :=
  if String.eqb agent_type "pm" then Some "planner"
  else if String.eqb agent_type "architect" then Some "planner"
  else if String.eqb agent_type "dev" then Some "coder"
  else if String.eqb agent_type "tea" then Some "qa_reviewer"
  else if String.eqb agent_type "sm" then Some "planner"
  else None.

(** [history[-10:]] *)
Definition last_10 (history : list AgentContribution.t)
  : list AgentContribution.t :=
  drop (length history - 10) history.

(** The line a contribution is rendered as in a later context. *)
Definition history_line (contrib : AgentContribution.t) : string :=
  "[Round " +:+ pretty (AgentContribution.round_num contrib) +:+ "] "
  +:+ AgentContribution.agent_name contrib
  +:+ " (" +:+ AgentContribution.agent_type contrib +:+ "): "
  +:+ AgentContribution.content contrib.

(** The lines added under [if history:]. *)
Definition previous_discussion (history : list AgentContribution.t)
  : list string :=
  match history with
  | [] => []
  | _ => ["Previous Discussion:"] ++ (history_line <$> last_10 history) ++ [""]
  end.

Definition persona_prompt (persona : Persona.t) : string :=
  "You are " +:+ Persona.name persona +:+ ", the " +:+ Persona.role persona
  +:+ ". "
  +:+ "Provide a brief, focused contribution (2-3 sentences) to this discussion from your perspective. "
  +:+ "Be specific and add value based on your expertise.".

Definition context_lines (topic : string) (history : list AgentContribution.t)
    (persona : Persona.t) : list string :=
  ["Discussion Topic: " +:+ topic; ""]
  ++ previous_discussion history
  ++ [persona_prompt persona].

Definition build_context (topic : string) (history : list AgentContribution.t)
    (persona : Persona.t) : string :=
  join nl (context_lines topic history persona).

(** [content[:497] + "..."] when [len(content) > 500]. *)
Definition cap_content (content : string) : string :=
  if (500 <? String.length content)%nat
  then String.substring 0 497 content +:+ "..."
  else content.

(** *** The transcript handed to the synthesis *)

(** [by_round]: the contributions of each round, in the order met. *)
Definition group_by_round (discussion_history : list AgentContribution.t)
  : gmap Z (list AgentContribution.t) :=
  foldl (fun by_round contrib =>
           let r := AgentContribution.round_num contrib in
           <[r := match by_round !! r with
                  | Some cs => cs ++ [contrib]
                  | None => [contrib]
                  end]> by_round)
        ∅ discussion_history.

Definition transcript_lines (discussion_history : list AgentContribution.t)
  : list string :=
  let by_round := group_by_round discussion_history in
  ["# Multi-Agent Discussion Synthesis"; ""]
  ++ mjoin ((fun round_num =>
               ["## Round " +:+ pretty round_num; ""]
               ++ mjoin ((fun contrib =>
                            ["**" +:+ AgentContribution.agent_name contrib
                             +:+ " (" +:+ AgentContribution.agent_type contrib
                             +:+ "):** " +:+ AgentContribution.content contrib;
                             ""])
                         <$> match by_round !! round_num with
                             | Some cs => cs
                             | None => []
                             end))
            <$> merge_sort Z.le (map_to_list by_round).*1).

Definition synthesis_prompt (synthesis_lines : list string) : string :=
  "Analyze this multi-agent discussion and provide:" +:+ nl
  +:+ "1. Key insights (3-5 bullet points)" +:+ nl
  +:+ "2. Consensus points (where agents agreed)" +:+ nl
  +:+ "3. Conflicting perspectives (where agents disagreed)" +:+ nl
  +:+ "4. Action items (specific next steps)" +:+ nl +:+ nl
  +:+ "Discussion:" +:+ nl
  +:+ join nl synthesis_lines +:+ nl +:+ nl
  +:+ "Please provide a concise synthesis in markdown format.".

(** The lines the [except] branch of [_synthesize_discussion] appends. *)
Definition basic_synthesis (e : string) : list string :=
  [""; "## Synthesis (Basic)"; ""; "- Discussion captured above";
   "- Unable to generate AI synthesis: " +:+ e; ""].

(** The number of entries of the list at a location. *)
Definition len (w : World) (l : loc) : nat := length (read w l).

(** How many times a round's contributions reach the shared list: once
    through [discussion_history.extend], and in round-robin mode once more
    through [history.append] on the same list object. *)
Definition copies (mode : string) : nat :=
  if String.eqb mode "round-robin" then 2 else 1.



(** Who speaks when: the agent type, the name and the round of each
    contribution. *)
Definition speakers (h : list AgentContribution.t)
  : list (string * string * Z) :=
  (fun c => (AgentContribution.agent_type c, AgentContribution.agent_name c,
             AgentContribution.round_num c)) <$> h.

(** The speakers of one round: each role once, in the order given, under the
    name of its persona. *)
Definition round_speakers (agent_types : list string) (round_num : Z)
  : list (string * string * Z) :=
  (fun a => (a, Persona.name (persona_of a), round_num)) <$> agent_types.

Definition get_recommended_agents (task_type : string) : list string :=
  if String.eqb task_type "planning" then ["pm"; "architect"; "dev"]
  else if String.eqb task_type "architecture" then ["architect"; "dev"; "tea"]
  else if String.eqb task_type "epic_breakdown"
  then ["pm"; "architect"; "dev"; "tea"]
  else if String.eqb task_type "retrospective" then ["pm"; "dev"; "tea"; "sm"]
  else if String.eqb task_type "estimation" then ["architect"; "dev"; "tea"]
  else ["pm"; "dev"; "tea"].

Section Orchestrator.

Variable project_path : string.

(** [create_client] followed by [run_agent_session]: the status tag and the
    response text, or the exception raised.  The answer may depend on the
    sessions run before. *)
Variable run_agent_session :
  list Invocation.t -> Invocation.t -> outcome (string * string).

Definition agent_session (inv : Invocation.t) : M World (string * string) :=
  fun w => (run_agent_session (calls w) inv,
            {| heap := heap w; calls := calls w ++ [inv]; clock := clock w |}).

Definition party_dir (leaf : string) : string :=
  project_path +:+ "/_bmad-output/.party-mode/" +:+ leaf.

(** The invocation [_get_agent_contribution] makes for an agent that sees
    [history]. *)
Definition contribution_call (agent_type topic : string)
    (history : list AgentContribution.t) (round_num : Z) : Invocation.t :=
  Invocation.mk
    (match agent_type_mapping agent_type with
     | Some a => a
     | None => "planner"
     end)
    (party_dir ("round-" +:+ pretty round_num))
    (build_context topic history (persona_of agent_type)).

(** [history] is the location of the list the caller passed; it is read when
    the context is built.  Creating the directory is assumed to succeed. *)
Definition _get_agent_contribution (agent_type topic : string) (history : loc)
    (round_num : Z) : M World AgentContribution.t :=
  let persona := persona_of agent_type in
  (h <- list_read history ;;
   try_except
     (r <- agent_session (contribution_call agent_type topic h round_num) ;;
      let '(status, response_text) := r in
      (* Extract the contribution (limit to reasonable length) *)
      let content := cap_content (strip response_text) in
      t <- now ;;
      m_ret (AgentContribution.mk agent_type (Persona.name persona) round_num
               content t))
     (fun e =>
        (* Fallback to simple contribution if agent execution fails *)
        let content :=
          Persona.name persona +:+ " (" +:+ Persona.role persona
          +:+ "): Unable to contribute (error: " +:+ e +:+ ")" in
        t <- now ;;
        m_ret (AgentContribution.mk agent_type (Persona.name persona)
                 round_num content t)))%m.

(** What [_get_agent_contribution] returns for an agent that sees [h], when
    the sessions run so far are [tr] and the clock reads [t]. *)
Definition contribution_of (agent_type topic : string)
    (h : list AgentContribution.t) (round_num : Z)
    (tr : list Invocation.t) (t : nat) : AgentContribution.t :=
  let persona := persona_of agent_type in
  AgentContribution.mk agent_type (Persona.name persona) round_num
    (match run_agent_session tr
             (contribution_call agent_type topic h round_num) with
     | Ret (_, response_text) => cap_content (strip response_text)
     | Raise e =>
         Persona.name persona +:+ " (" +:+ Persona.role persona
         +:+ "): Unable to contribute (error: " +:+ e +:+ ")"
     end) t.

Definition _run_round_robin (agent_types : list string) (topic : string)
    (history : loc) (round_num : Z) : M World loc :=
  (contributions <- new_list [] ;;
   (* Each agent contributes in sequence *)
   for_each agent_types (fun agent_type =>
     contribution <- _get_agent_contribution agent_type topic history
                       round_num ;;
     list_append contributions contribution ;;;
     (* Add to history so next agent sees previous contributions *)
     list_append history contribution) ;;;
   m_ret contributions)%m.

(** The tasks of [asyncio.gather] are taken in the order they are started,
    which is the order of [agent_types]; none of them writes to [history]. *)
Definition _run_free_form (agent_types : list string) (topic : string)
    (history : loc) (round_num : Z) : M World loc :=
  (contributions <-
     map_m (fun agent_type =>
              _get_agent_contribution agent_type topic history round_num)
           agent_types ;;
   new_list contributions)%m.

Definition _synthesize_discussion (discussion_history : loc)
  : M World string :=
  (h <- list_read discussion_history ;;
   let synthesis_lines := transcript_lines h in
   lines <-
     try_except
       (r <- agent_session
               (Invocation.mk "planner" (party_dir "synthesis")
                  (synthesis_prompt synthesis_lines)) ;;
        let '(status, response_text) := r in
        m_ret (synthesis_lines
               ++ [""; "## AI-Generated Synthesis"; ""; response_text]))
       (fun e => m_ret (synthesis_lines ++ basic_synthesis e)) ;;
   m_ret (join nl lines))%m.

(** The invocation [_synthesize_discussion] makes for the history [h], and
    the text it returns when the sessions run so far are [tr]. *)
Definition synthesis_call (h : list AgentContribution.t) : Invocation.t :=
  Invocation.mk "planner" (party_dir "synthesis")
    (synthesis_prompt (transcript_lines h)).

Definition synthesis_of (h : list AgentContribution.t)
    (tr : list Invocation.t) : string :=
  join nl
    (transcript_lines h
     ++ match run_agent_session tr (synthesis_call h) with
        | Ret (_, response_text) =>
            [""; "## AI-Generated Synthesis"; ""; response_text]
        | Raise e => basic_synthesis e
        end).

Definition run_party_mode (agent_types : list string)
    (discussion_topic : string) (rounds : Z) (mode : string)
  : M World PartyModeResult.t :=
  (discussion_history <- new_list [] ;;
   (* Run discussion rounds *)
   for_each (seqZ 1 rounds) (fun round_num =>
     round_outputs <-
       (if String.eqb mode "round-robin"
        then _run_round_robin agent_types discussion_topic
               discussion_history round_num
        else _run_free_form agent_types discussion_topic
               discussion_history round_num) ;;
     list_extend discussion_history round_outputs) ;;;
   (* Synthesize discussion *)
   synthesis <- _synthesize_discussion discussion_history ;;
   h <- list_read discussion_history ;;
   m_ret (PartyModeResult.mk h synthesis "success"))%m.

End Orchestrator.

End PartyMode.

(** ** Front matter of the workflow files *)

Module Frontmatter.

Section Parser.

(** What the YAML parser can yield, [yaml.safe_load] (a value or the
    exception raised), Python's truth test on a value, and [{}]. *)
Variable Value : Type.
Variable yaml_safe_load : string -> outcome Value.
Variable truthy : Value -> bool.
Variable empty_dict : Value.

(** [try: return yaml.safe_load(frontmatter) or {}
     except Exception: return {}]. *)
Definition safe_load_or_empty (frontmatter : string) : Value :=
  match yaml_safe_load frontmatter with
  | Ret v => if truthy v then v else empty_dict
  | Raise _ => empty_dict
  end.

(** [_parse_frontmatter], on the text read from the file.  [find] is
    [String.index] ([None] for -1) and the slice [content[3:end_marker]] is
    [String.substring 3 (end_marker - 3)]. *)
Definition _parse_frontmatter (content : string) : Value :=
  if negb (String.prefix "---" content) then empty_dict
  else
    match String.index 3 "---" content with
    | None => empty_dict
    | Some end_marker =>
        let frontmatter :=
          PartyMode.strip (String.substring 3 (end_marker - 3) content) in
        safe_load_or_empty frontmatter
    end.

End Parser.

(** ["---"] occurs nowhere in [body], also not across its end when dashes
    follow it. *)
Definition no_marker_in (body : string) : Prop :=
  String.index 0 "---" (body +:+ "--") = None.

End Frontmatter.

(** * Sample workflows, agents and sessions *)

Module Samples.
Import BmadState BmadEngine.

Definition step (file name : string) : WorkflowStep.t :=
  WorkflowStep.mk file name "pm" None.

Definition workflow_of (steps : list WorkflowStep.t) : Workflow.t :=
  Workflow.mk "release" "" "planning" "/wf/release" steps None None None.

Definition registry_of (workflow : Workflow.t) (name : string)
  : option Workflow.t :=
  if String.eqb name "release" then Some workflow else None.

Definition step_files (path file : string) : option string :=
  Some "Do the work.".

Definition no_outputs (path : string) : option nat := None.

(** The agent whose [n]-th step since the log began ends with status
    error, every other one with status complete. *)
Definition fails_at (n : nat) (evs : list Event) (agent_type message : string)
  : outcome (string * string) :=
  if bool_decide (length (executed evs) = n) then Ret ("error", "")
  else Ret ("complete", "done").

Definition all_callbacks : Callbacks := mkCallbacks true true true true.

Definition fresh : World := mkWorld empty_disk [].


Definition run (steps : list WorkflowStep.t) (n : nat) (w : World)
  : outcome WorkflowResult.t * World :=
  execute_workflow true (registry_of (workflow_of steps)) step_files
    (fails_at n) no_outputs "release" all_callbacks w.

Definition one_step : list WorkflowStep.t := [step "1.md" "draft"].




(** A record with a [currentStep] that is not the number of its steps. *)
Definition miscounted : State :=
  {| status := Some "in_progress"; stepsCompleted := Some [];
     currentStep := Some 7%Z; startedAt := None; completedAt := None;
     failedAt := None; lastUpdated := None; lastError := None;
     failedAtStep := None |}.

Definition some_ops : list Op :=
  [OpMarkStepComplete "w" "s1"; OpMarkWorkflowFailed "w" "e" (Some 2%Z);
   OpResetWorkflow "v"; OpSaveState "v" default_state; OpListWorkflows;
   OpMarkStepComplete "w" "s2"; OpMarkWorkflowComplete "w"].



End Samples.

(** * Facts about the state store *)

Module StateStoreFacts.
Import BmadState.


Lemma get_state_insert_eq d d' k s :
  files d' = <[k := Json s]> (files d) → get_state d' k = s.
Proof. unfold get_state. intros ->. rewrite lookup_insert_eq. reflexivity. Qed.

Lemma get_state_insert_ne d d' k k' s :
  files d' = <[k := Json s]> (files d) → k ≠ k' →
  get_state d' k' = get_state d k'.
Proof.
  unfold get_state. intros -> Hne. rewrite lookup_insert_ne by done.
  reflexivity.
Qed.

Lemma step_count_ok_spec s :
  step_count_ok s = true ↔
  ∃ l, stepsCompleted s = Some l ∧ currentStep s = Some (Z.of_nat (length l)).
Proof.
  unfold step_count_ok. split.
  - destruct (stepsCompleted s) as [l|], (currentStep s) as [n|];
      try discriminate.
    intros H%bool_decide_eq_true. subst. eauto.
  - intros (l & -> & ->). apply bool_decide_eq_true. reflexivity.
Qed.

(** What each writing operation leaves in the file of its workflow. *)

Lemma mark_step_complete_written k step d :
  ∃ s, files (snd (mark_step_complete k step d)) = <[k := Json s]> (files d)
       ∧ stepsCompleted s = Some (add_step step (completed_steps d k))
       ∧ currentStep s
         = Some (Z.of_nat (length (add_step step (completed_steps d k))))
       ∧ failure_record s = failure_record (get_state d k)
       ∧ (status s = Some "in_progress" ∨ status s = status (get_state d k)).
Proof.
  unfold mark_step_complete, completed_steps, add_step, failure_record.
  destruct (bool_decide (status (get_state d k) = Some "not_started"));
    eexists; cbn; (split; [reflexivity|]); cbn; repeat split; auto.
Qed.

Lemma mark_workflow_complete_written k d :
  ∃ s, files (snd (mark_workflow_complete k d)) = <[k := Json s]> (files d)
       ∧ stepsCompleted s = stepsCompleted (get_state d k)
       ∧ currentStep s = currentStep (get_state d k)
       ∧ status s = Some "completed".
Proof. eexists. cbn. split; [reflexivity|]. cbn. auto. Qed.

Lemma mark_workflow_failed_written k e n d :
  ∃ s, files (snd (mark_workflow_failed k e n d)) = <[k := Json s]> (files d)
       ∧ stepsCompleted s = stepsCompleted (get_state d k)
       ∧ currentStep s = currentStep (get_state d k)
       ∧ status s = Some "failed" ∧ lastError s = Some e.
Proof. eexists. cbn. split; [reflexivity|]. cbn. auto. Qed.

Lemma completed_steps_mark_step_complete k step d :
  completed_steps (snd (mark_step_complete k step d)) k
  = add_step step (completed_steps d k).
Proof.
  destruct (mark_step_complete_written k step d) as (s & Hf & Hs & _).
  unfold completed_steps at 1. rewrite (get_state_insert_eq _ _ _ _ Hf), Hs.
  reflexivity.
Qed.

(** [add_step] and [add_steps] as operations on lists. *)





Lemma add_steps_prefix names : ∀ l, l `prefix_of` add_steps l names.
Proof.
  induction names as [|n names IH]; intros l; cbn; [reflexivity|].
  etrans; [|apply IH]. unfold add_step. case_bool_decide; [reflexivity|].
  apply prefix_app_r. reflexivity.
Qed.

(** The failure fields only change through [mark_workflow_failed]. *)

Lemma no_failure_recorded_refl d name : no_failure_recorded d d name.
Proof. split; auto. Qed.

Lemma no_failure_recorded_trans d1 d2 d3 name :
  no_failure_recorded d1 d2 name → no_failure_recorded d2 d3 name →
  no_failure_recorded d1 d3 name.
Proof.
  intros [H1 H1'] [H2 H2']. split; [congruence|].
  destruct H2' as [?|H2']; [left; assumption|]. rewrite H2'. exact H1'.
Qed.

Lemma mark_step_complete_no_failure name step d :
  no_failure_recorded d (snd (mark_step_complete name step d)) name.
Proof.
  destruct (mark_step_complete_written name step d)
    as (s & Hf & _ & _ & Hfr & Hst).
  unfold no_failure_recorded.
  rewrite (get_state_insert_eq _ _ _ _ Hf). auto.
Qed.

(** The count invariant, operation by operation. *)

Lemma default_state_ok : step_count_ok default_state = true.
Proof. reflexivity. Qed.

Lemma get_state_ok d k : disk_ok d → step_count_ok (get_state d k) = true.
Proof.
  intros Hd. unfold get_state.
  destruct (files d !! k) as [[|s]|] eqn:E; try apply default_state_ok.
  exact (Hd k s E).
Qed.

Lemma disk_ok_insert d d' k s :
  disk_ok d → files d' = <[k := Json s]> (files d) →
  step_count_ok s = true → disk_ok d'.
Proof.
  intros Hd Hf Hs k' s'. rewrite Hf, lookup_insert.
  case_decide; [intros [= <-]; exact Hs | apply Hd].
Qed.

Lemma disk_ok_same_count d d' k s :
  disk_ok d → files d' = <[k := Json s]> (files d) →
  stepsCompleted s = stepsCompleted (get_state d k) →
  currentStep s = currentStep (get_state d k) → disk_ok d'.
Proof.
  intros Hd Hf Hs Hc. eapply disk_ok_insert; [exact Hd|exact Hf|].
  pose proof (get_state_ok d k Hd) as Hk. unfold step_count_ok in *.
  rewrite Hs, Hc. exact Hk.
Qed.

Lemma run_op_ok d op :
  disk_ok d → op_record_ok op = true → disk_ok (run_op d op).
Proof.
  intros Hd Hop.
  destruct op as [k|k s|k step|k|k e n|k| |k|k]; cbn [run_op]; try exact Hd.
  - eapply disk_ok_insert; [exact Hd|reflexivity|exact Hop].
  - destruct (mark_step_complete_written k step d) as (s & Hf & Hs & Hc & _).
    eapply disk_ok_insert; [exact Hd|exact Hf|].
    apply step_count_ok_spec. eauto.
  - destruct (mark_workflow_complete_written k d) as (s & Hf & Hs & Hc & _).
    eapply disk_ok_same_count; eassumption.
  - destruct (mark_workflow_failed_written k e n d) as (s & Hf & Hs & Hc & _).
    eapply disk_ok_same_count; eassumption.
  - intros k' s'. cbn. rewrite lookup_delete.
    case_decide; [discriminate|apply Hd].
Qed.

Lemma run_ops_ok ops : ∀ d,
  disk_ok d → forallb op_record_ok ops = true → disk_ok (run_ops ops d).
Proof.
  induction ops as [|op ops IH]; intros d Hd Hops; [exact Hd|].
  cbn in Hops. apply andb_true_iff in Hops as [Hop Hops].
  unfold run_ops. cbn. apply IH; [apply run_op_ok; assumption|exact Hops].
Qed.

Lemma empty_disk_ok : disk_ok empty_disk.
Proof. intros k s. cbn. rewrite lookup_empty. discriminate. Qed.

Lemma list_workflows_ok d name s :
  disk_ok d → (name, s) ∈ list_workflows d → step_count_ok s = true.
Proof.
  intros Hd Hin. unfold list_workflows in Hin.
  apply list_elem_of_omap in Hin as ([k f] & Hin & Hf).
  rewrite merge_sort_Permutation in Hin.
  apply elem_of_map_to_list in Hin.
  destruct f as [|s']; [discriminate|]. injection Hf as <- <-.
  exact (Hd k s' Hin).
Qed.

(** Claim C3, as amended.  After any sequence of state store operations
    run from the empty state directory (where every workflow reads as the
    default record), in which every record handed to [save_state] itself has
    [currentStep == len(stepsCompleted)], the record [get_state] returns for
    any workflow, and every record [list_workflows] returns, has
    [currentStep == len(stepsCompleted)]. *)
Theorem current_step_is_length_of_steps_completed
    (ops : list Op) (key : string) :
  forallb op_record_ok ops = true →
  (∃ l, stepsCompleted (get_state (run_ops ops empty_disk) key) = Some l
        ∧ currentStep (get_state (run_ops ops empty_disk) key)
          = Some (Z.of_nat (length l)))
  ∧ (∀ name s,
       (name, s) ∈ list_workflows (run_ops ops empty_disk) →
       ∃ l, stepsCompleted s = Some l
            ∧ currentStep s = Some (Z.of_nat (length l))).
Proof.
  intros Hops.
  assert (Hd : disk_ok (run_ops ops empty_disk)).
  { apply run_ops_ok; [apply empty_disk_ok | exact Hops]. }
  split.
  - apply step_count_ok_spec, get_state_ok, Hd.
  - intros name s Hin. eapply step_count_ok_spec, list_workflows_ok; eassumption.
Qed.

Lemma current_step_is_length_witness :
  (∃ l, stepsCompleted (get_state (run_ops Samples.some_ops empty_disk) "w")
        = Some l
        ∧ currentStep (get_state (run_ops Samples.some_ops empty_disk) "w")
          = Some (Z.of_nat (length l)))
  ∧ (∀ name s,
       (name, s) ∈ list_workflows (run_ops Samples.some_ops empty_disk) →
       ∃ l, stepsCompleted s = Some l
            ∧ currentStep s = Some (Z.of_nat (length l))).
Proof.
  apply (current_step_is_length_of_steps_completed Samples.some_ops "w").
  reflexivity.
Defined.

(** Claim C3 as stated fails: [save_state] is a state store operation and
    writes the record it is given; after saving a record with no completed
    step and [currentStep] 7, that is what [get_state] returns. *)
Lemma save_state_breaks_step_count :
  stepsCompleted
    (get_state (run_ops [OpSaveState "w" Samples.miscounted] empty_disk) "w")
  = Some []
  ∧ currentStep
      (get_state (run_ops [OpSaveState "w" Samples.miscounted] empty_disk) "w")
    = Some 7%Z.
Proof. split; reflexivity. Qed.



(** Reset semantics: after [reset_workflow], the workflow reads as the
    default record (not started, no completed step, current step 0), and
    resetting twice is resetting once. *)
Theorem reset_then_get_state_is_default (d : Disk) (key : string) :
  get_state (snd (reset_workflow key d)) key = default_state
  ∧ snd (reset_workflow key (snd (reset_workflow key d)))
    = snd (reset_workflow key d).
Proof.
  split.
  - unfold get_state, reset_workflow. cbn. rewrite lookup_delete_eq.
    reflexivity.
  - unfold reset_workflow. cbn. f_equal. apply delete_delete_eq.
Qed.

(** ** One workflow and the others *)





(** ** Progress is only lost through a reset or a raw save *)





(** ** What the resume queries answer after each write *)







(** ** Listing *)



(** ** Several steps marked in a row *)



End StateStoreFacts.

(** * Facts about the workflow engine *)

Module EngineFacts.
Import BmadState BmadEngine StateStoreFacts.

Section WithEnvironment.

Variable registry : string -> option Workflow.t.
Variable step_file_text : string -> string -> option string.
Variable run_agent_session :
  list Event -> string -> string -> outcome (string * string).
Variable output_size : string -> option nat.

(** The engine with its state manager, in this environment. *)
Abbreviation run_steps :=
  (BmadEngine.run_steps true step_file_text run_agent_session).
Abbreviation execute_workflow :=
  (BmadEngine.execute_workflow true registry step_file_text run_agent_session
     output_size).
Abbreviation _execute_step :=
  (BmadEngine._execute_step step_file_text run_agent_session).
Abbreviation _collect_outputs := (BmadEngine._collect_outputs output_size).

Lemma executed_app evs evs' :
  executed (evs ++ evs') = executed evs ++ executed evs'.
Proof. apply omap_app. Qed.

(** A callback leaves the disk and the executed steps as they are. *)
Lemma when_emit b e w :
  is_callback e = true →
  ∃ w', when b (emit e) w = (Ret tt, w')
        ∧ disk w' = disk w
        ∧ events w' = events w ++ (if b then [e] else [])
        ∧ executed (events w') = executed (events w).
Proof.
  intros He. destruct b; cbn; eexists; (split; [reflexivity|]); cbn;
    rewrite ?app_nil_r; repeat split; auto.
  rewrite executed_app. destruct e; try discriminate; cbn; apply app_nil_r.
Qed.

(** [_execute_step] never raises, never writes to the state directory, and
    is logged once. *)
Lemma _execute_step_returns workflow step w :
  ∃ r w', _execute_step workflow step w = (Ret r, w')
          ∧ disk w' = disk w
          ∧ executed (events w') = executed (events w) ++ [step].
Proof.
  unfold BmadEngine._execute_step, m_bind, emit, modify, try_except,
    agent_session.
  cbn.
  destruct (step_file_text _ _) as [text|]; cbn.
  - destruct (run_agent_session _ _ _) as [[st resp]|e]; cbn.
    + destruct (_ || _); cbn; do 2 eexists; (split; [reflexivity|]); cbn;
        rewrite !executed_app; cbn; rewrite app_nil_r; auto.
    + do 2 eexists; (split; [reflexivity|]); cbn;
        rewrite !executed_app; cbn; rewrite app_nil_r; auto.
  - do 2 eexists; (split; [reflexivity|]); cbn;
      rewrite !executed_app; cbn; auto.
Qed.

Section Run.

Variables (name : string) (wf : Workflow.t) (cbs : Callbacks).

(** The loop over the remaining steps: it executes the first [m] of them, in
    order; either the [m]-th fails, and the steps before it are the ones
    marked complete, or all succeed and all are marked. *)
Lemma run_steps_progress : ∀ steps i results w,
  ∃ out w' m,
    run_steps name wf cbs i steps results w = (Ret out, w')
    ∧ executed (events w') = executed (events w) ++ take m steps
    ∧ no_failure_recorded (disk w) (disk w') name
    ∧ match out with
      | inl r =>
          WorkflowResult.status r = "failed"
          ∧ WorkflowResult.failed_step r = Some (i + m)
          ∧ (1 ≤ m ≤ length steps)
          ∧ completed_steps (disk w') name
            = add_steps (completed_steps (disk w) name)
                (step_names (take (m - 1) steps))
      | inr _ =>
          m = length steps
          ∧ completed_steps (disk w') name
            = add_steps (completed_steps (disk w) name) (step_names steps)
      end.
Proof.
  induction steps as [|step rest IH]; intros i results w.
  - exists (inr results), w, 0. cbn. rewrite app_nil_r.
    repeat split; auto.
  - cbn [BmadEngine.run_steps]. unfold m_bind at 1.
    destruct (when_emit (on_step_start cbs)
                (OnStepStart (i + 1) (WorkflowStep.name step)) w eq_refl)
      as (w1 & -> & Hd1 & _ & Hx1).
    unfold m_bind at 1.
    destruct (_execute_step_returns wf step w1) as (r & w2 & -> & Hd2 & Hx2).
    destruct (String.eqb (StepResult.status r) "failed").
    + unfold m_bind at 1.
      destruct (when_emit (on_error cbs)
                  (OnError ("Step " +:+ pretty (i + 1) +:+ " failed: "
                            +:+ str_opt (StepResult.error r))) w2 eq_refl)
        as (w3 & -> & Hd3 & _ & Hx3).
      eexists _, w3, 1. split; [reflexivity|]. cbn.
      rewrite Hx3, Hx2, Hx1, Hd3, Hd2, Hd1.
      repeat split; auto; lia.
    + unfold m_bind at 1. cbn [when]. unfold m_bind at 1, on_disk.
      destruct (mark_step_complete name (WorkflowStep.name step) (disk w2))
        as [b d3] eqn:Hmark.
      cbn [m_ret].
      set (w3 := {| disk := d3; events := events w2 |}).
      unfold m_bind at 1.
      destruct (when_emit (on_step_complete cbs)
                  (OnStepComplete (i + 1) (StepResult.output r)) w3 eq_refl)
        as (w4 & -> & Hd4 & _ & Hx4).
      destruct (IH (S i) (results ++ [r]) w4)
        as (out & w' & m & -> & Hx & Hnf & Hout).
      exists out, w', (S m). split; [reflexivity|].
      assert (Hd3 : d3 = snd (mark_step_complete name
                                (WorkflowStep.name step) (disk w))).
      { rewrite <- Hd1, <- Hd2, Hmark. reflexivity. }
      assert (Hc4 : completed_steps (disk w4) name
                    = add_step (WorkflowStep.name step)
                        (completed_steps (disk w) name)).
      { rewrite Hd4. subst w3. cbn [disk]. rewrite Hd3.
        apply completed_steps_mark_step_complete. }
      split; [|split].
      * rewrite Hx, Hx4. subst w3. cbn [events].
        rewrite Hx2, Hx1, <- app_assoc. reflexivity.
      * eapply no_failure_recorded_trans; [|exact Hnf].
        rewrite Hd4. subst w3. cbn [disk]. rewrite Hd3.
        apply mark_step_complete_no_failure.
      * destruct out as [res|rs].
        -- destruct Hout as (Hs & Hf & Hm & Hc). repeat split; auto.
           ++ rewrite Hf. f_equal. lia.
           ++ lia.
           ++ cbn; lia.
           ++ rewrite Hc, Hc4. destruct m as [|m]; [lia|]. cbn.
              rewrite Nat.sub_0_r. reflexivity.
        -- destruct Hout as (Hm & Hc). split; [cbn; lia|].
           rewrite Hc, Hc4. reflexivity.
Qed.

End Run.

(** A run of a workflow that is found: it starts at the number of recorded
    steps and either fails at one of the remaining steps or completes. *)
Lemma execute_workflow_progress name cbs wf w :
  registry name = Some wf →
  ∃ r w' m,
    execute_workflow name cbs w = (Ret r, w')
    ∧ executed (events w')
      = executed (events w)
        ++ take m (drop (length (completed_steps (disk w) name))
                     (Workflow.steps wf))
    ∧ ((WorkflowResult.status r = "failed"
        ∧ WorkflowResult.failed_step r
          = Some (length (completed_steps (disk w) name) + m)
        ∧ (1 ≤ m ≤ length (drop (length (completed_steps (disk w) name))
                             (Workflow.steps wf)))
        ∧ no_failure_recorded (disk w) (disk w') name
        ∧ completed_steps (disk w') name
          = add_steps (completed_steps (disk w) name)
              (step_names
                 (take (m - 1)
                    (drop (length (completed_steps (disk w) name))
                       (Workflow.steps wf)))))
       ∨ (WorkflowResult.status r = "success"
          ∧ WorkflowResult.failed_step r = None
          ∧ m = length (drop (length (completed_steps (disk w) name))
                          (Workflow.steps wf))
          ∧ completed_steps (disk w') name
            = add_steps (completed_steps (disk w) name)
                (step_names
                   (drop (length (completed_steps (disk w) name))
                      (Workflow.steps wf)))
          ∧ status (get_state (disk w') name) = Some "completed")).
Proof.
  intros Hreg.
  unfold BmadEngine.execute_workflow, try_else, load_workflow.
  rewrite Hreg. cbn [m_ret]. unfold m_bind at 1. cbn [gets].
  fold (completed_steps (disk w) name).
  set (c := completed_steps (disk w) name).
  unfold m_bind at 1.
  destruct (run_steps_progress name wf cbs
              (drop (length c) (Workflow.steps wf)) (length c) [] w)
    as (out & w1 & m & -> & Hx & Hnf & Hout).
  destruct out as [r|rs].
  - exists r, w1, m. cbn [m_ret]. split; [reflexivity|]. split; [exact Hx|].
    left. destruct Hout as (? & ? & ? & ?). auto.
  - destruct Hout as (Hm & Hc).
    unfold m_bind at 1. cbn [when]. unfold m_bind at 1, on_disk.
    destruct (mark_workflow_complete name (disk w1)) as [b d2] eqn:Hmark.
    cbn [m_ret]. unfold m_bind at 1.
    destruct (when_emit (on_workflow_complete cbs)
                (OnWorkflowComplete (_collect_outputs wf rs))
                {| disk := d2; events := events w1 |} eq_refl)
      as (w3 & -> & Hd3 & _ & Hx3).
    eexists _, w3, m. split; [reflexivity|]. cbn in Hx3, Hd3.
    split; [rewrite Hx3; exact Hx|].
    right. cbn.
    destruct (mark_workflow_complete_written name (disk w1))
      as (s & Hf & Hs & _ & Hst).
    rewrite Hmark in Hf. cbn in Hf.
    assert (Hg : get_state (disk w3) name = s).
    { rewrite Hd3. eapply get_state_insert_eq. exact Hf. }
    repeat split; auto.
    + unfold completed_steps at 1. rewrite Hg, Hs. exact Hc.
    + rewrite Hg. exact Hst.
Qed.

(** A run of a workflow that is not found touches nothing. *)
Lemma execute_workflow_not_found name cbs w :
  registry name = None →
  ∃ r w', execute_workflow name cbs w = (Ret r, w') ∧ disk w' = disk w
          ∧ executed (events w') = executed (events w).
Proof.
  intros Hreg. unfold BmadEngine.execute_workflow, try_else, load_workflow.
  rewrite Hreg. cbn [m_raise]. unfold m_bind.
  destruct (when_emit (on_error cbs)
              (OnError ("Workflow '" +:+ name +:+ "' not found")) w eq_refl)
    as (w1 & -> & Hd & _ & Hx).
  eexists _, w1. split; [reflexivity|]. auto.
Qed.

(** Claim C1: what the code does where the claim asks for the failure to be
    persisted.  When [execute_workflow] returns a failed result, the state
    directory holds no record of the failure: [lastError], [failedAtStep]
    and [failedAt] are what they were before the call, and the status is
    what it was or in-progress, never newly failed.  The steps recorded as
    completed before the call are still recorded, in the same order. *)
Theorem failed_run_leaves_no_failure_record name cbs w r w' :
  execute_workflow name cbs w = (Ret r, w') →
  WorkflowResult.status r = "failed" →
  no_failure_recorded (disk w) (disk w') name
  ∧ completed_steps (disk w) name `prefix_of` completed_steps (disk w') name.
Proof.
  intros Hrun Hfailed.
  destruct (registry name) as [wf|] eqn:Hreg.
  - destruct (execute_workflow_progress name cbs wf w Hreg)
      as (r1 & w1 & m & Hrun1 & _ & Hcase).
    rewrite Hrun in Hrun1. injection Hrun1 as <- <-.
    destruct Hcase as [(_ & _ & _ & Hnf & Hc)|(Hs & _)].
    + split; [exact Hnf|]. rewrite Hc. apply add_steps_prefix.
    + rewrite Hfailed in Hs. discriminate.
  - destruct (execute_workflow_not_found name cbs w Hreg)
      as (r1 & w1 & Hrun1 & Hd & _).
    rewrite Hrun in Hrun1. injection Hrun1 as <- <-.
    rewrite Hd. split; [apply no_failure_recorded_refl|reflexivity].
Qed.




(** The engine never raises: every call of [execute_workflow] returns a
    result. *)
Theorem execute_workflow_never_raises name cbs w :
  ∃ r w', execute_workflow name cbs w = (Ret r, w').
Proof.
  destruct (registry name) as [wf|] eqn:Hreg.
  - destruct (execute_workflow_progress name cbs wf w Hreg)
      as (r & w' & _ & Hrun & _).
    eauto.
  - destruct (execute_workflow_not_found name cbs w Hreg)
      as (r & w' & Hrun & _).
    eauto.
Qed.



(** ** The trace of a run: callbacks, sessions and writes *)





Lemma writes_cons sm op ops d :
  writes sm (op :: ops) d = writes sm ops (writes sm [op] d).
Proof. destruct sm; reflexivity. Qed.



Section Trace.

Variable sm : bool.
Variables (name : string) (wf : Workflow.t) (cbs : Callbacks).


End Trace.

(** The engine, with or without its state manager. *)
Abbreviation execute_workflow_with sm :=
  (BmadEngine.execute_workflow sm registry step_file_text run_agent_session
     output_size).


(** ** What the marks of a run add up to *)


Lemma completed_steps_marks name steps : ∀ d,
  completed_steps (run_ops (marks name steps) d) name
  = add_steps (completed_steps d name) (step_names steps).
Proof.
  induction steps as [|s steps IH]; intros d; [reflexivity|].
  cbn [marks fmap list_fmap]. unfold run_ops. cbn [foldl].
  fold (run_ops (marks name steps) (run_op d (OpMarkStepComplete name
                                               (WorkflowStep.name s)))).
  fold (marks name steps). unfold run_ops in IH |- *. rewrite IH.
  cbn [run_op]. rewrite completed_steps_mark_step_complete. reflexivity.
Qed.


(** ** Properties of a run *)








(** The outputs a successful run reports: a path is listed exactly when the
    workflow declares it and the file exists; the entry says the file
    exists, gives the size found on disk and the description of the last
    declaration of that path (the empty string if that one has none);
    nothing depends on the results of the steps, and a workflow that
    declares no outputs reports none.  Every declaration is taken to carry
    a path, as [OutputDef] has it. *)
Theorem collect_outputs_lists_existing_declared_files workflow results p :
  let defs := match Workflow.outputs workflow with
              | Some defs => defs
              | None => []
              end in
  _collect_outputs workflow results !! p
  = match output_size p,
          last (filter (λ output_def, OutputDef.path output_def = p) defs)
    with
    | Some sz, Some output_def =>
        Some (OutputInfo.mk true sz
                (match OutputDef.description output_def with
                 | Some s => s
                 | None => ""
                 end))
    | _, _ => None
    end.
Proof.
  unfold BmadEngine._collect_outputs.
  destruct (Workflow.outputs workflow) as [defs|]; cbn zeta.
  - induction defs as [|od defs IH] using rev_ind.
    + cbn. rewrite lookup_empty. destruct (output_size p); reflexivity.
    + rewrite foldl_app, filter_app. cbn [foldl].
      rewrite filter_cons, filter_nil.
      destruct (decide (OutputDef.path od = p)) as [Hp|Hp].
      * rewrite last_snoc. subst p.
        destruct (output_size (OutputDef.path od)) as [sz|]; [|exact IH].
        apply lookup_insert_eq.
      * rewrite app_nil_r, <- IH.
        destruct (output_size (OutputDef.path od)) as [sz|]; [|reflexivity].
        apply lookup_insert_ne. exact Hp.
  - cbn. rewrite lookup_empty. destruct (output_size p); reflexivity.
Qed.


End WithEnvironment.


(** A one-step workflow whose step ends with status error, run on an empty
    state directory: the result is failed at step 1, and the state read
    back is still the default record. *)
Lemma failed_run_witness :
  (no_failure_recorded empty_disk
     (disk (snd (Samples.run Samples.one_step 1 Samples.fresh))) "release"
   ∧ completed_steps empty_disk "release"
     `prefix_of` completed_steps
                   (disk (snd (Samples.run Samples.one_step 1 Samples.fresh)))
                   "release")
  ∧ fst (Samples.run Samples.one_step 1 Samples.fresh)
    = Ret (WorkflowResult.mk "failed" None (Some 1)
             (Some "Agent session ended with status: error"))
  ∧ get_state (disk (snd (Samples.run Samples.one_step 1 Samples.fresh)))
      "release"
    = default_state.
Proof.
  split; [|split; vm_compute; reflexivity].
  apply (failed_run_leaves_no_failure_record
           (Samples.registry_of (Samples.workflow_of Samples.one_step))
           Samples.step_files (Samples.fails_at 1) Samples.no_outputs
           "release" Samples.all_callbacks Samples.fresh
           (WorkflowResult.mk "failed" None (Some 1)
              (Some "Agent session ended with status: error"))).
  - vm_compute. reflexivity.
  - reflexivity.
Defined.









End EngineFacts.

(** * Facts about party mode *)

Module PartyModeFacts.
Import PartyMode.

Section WithAgent.
Variable project_path : string.
Variable run_agent_session :
  list Invocation.t -> Invocation.t -> outcome (string * string).

(** The orchestrator of this project, with this agent. *)
Abbreviation _get_agent_contribution :=
  (PartyMode._get_agent_contribution project_path run_agent_session).
Abbreviation _synthesize_discussion :=
  (PartyMode._synthesize_discussion project_path run_agent_session).
Abbreviation _run_round_robin :=
  (PartyMode._run_round_robin project_path run_agent_session).
Abbreviation _run_free_form :=
  (PartyMode._run_free_form project_path run_agent_session).
Abbreviation run_party_mode :=
  (PartyMode.run_party_mode project_path run_agent_session).
Abbreviation contribution_call := (PartyMode.contribution_call project_path).
Abbreviation contribution_of :=
  (PartyMode.contribution_of project_path run_agent_session).
Abbreviation synthesis_call := (PartyMode.synthesis_call project_path).
Abbreviation synthesis_of :=
  (PartyMode.synthesis_of project_path run_agent_session).

Lemma get_agent_contribution_eq agent_type topic history round_num w :
  _get_agent_contribution agent_type topic history round_num w
  = (Ret (contribution_of agent_type topic (read w history) round_num
            (calls w) (clock w)),
     {| heap := heap w;
        calls := calls w
                 ++ [contribution_call agent_type topic (read w history)
                       round_num];
        clock := S (clock w) |}).
Proof.
  unfold PartyMode._get_agent_contribution, PartyMode.contribution_of,
    m_bind, try_except, list_read, gets, agent_session, now, m_ret.
  destruct (run_agent_session _ _) as [[st text]|e]; reflexivity.
Qed.

Lemma synthesize_discussion_eq history w :
  _synthesize_discussion history w
  = (Ret (synthesis_of (read w history) (calls w)),
     {| heap := heap w;
        calls := calls w ++ [synthesis_call (read w history)];
        clock := clock w |}).
Proof.
  unfold PartyMode._synthesize_discussion, PartyMode.synthesis_of,
    PartyMode.synthesis_call, m_bind, try_except, list_read, gets,
    agent_session, m_ret.
  destruct (run_agent_session _ _) as [[st text]|e]; reflexivity.
Qed.

(** ** Never raising *)

Lemma returns_ret {W A} (a : A) : returns (W:=W) (m_ret a).
Proof. intros w. eexists _, _. reflexivity. Qed.

Lemma returns_bind {W A B} (c : M W A) (k : A → M W B) :
  returns c → (∀ a, returns (k a)) → returns (m_bind c k).
Proof.
  intros Hc Hk w. unfold m_bind. destruct (Hc w) as (a & w1 & ->). apply Hk.
Qed.

Lemma returns_for_each {W A} (xs : list A) (body : A → M W unit) :
  (∀ x, returns (body x)) → returns (for_each xs body).
Proof.
  intros Hb. induction xs as [|x xs IH]; cbn.
  - apply returns_ret.
  - apply returns_bind; [apply Hb | intros _; exact IH].
Qed.

Lemma returns_map_m {W A B} (f : A → M W B) (xs : list A) :
  (∀ x, returns (f x)) → returns (map_m f xs).
Proof.
  intros Hf. induction xs as [|x xs IH]; cbn.
  - apply returns_ret.
  - apply returns_bind; [apply Hf | intros y].
    apply returns_bind; [exact IH | intros ys; apply returns_ret].
Qed.

Lemma returns_get_agent_contribution a topic history round_num :
  returns (_get_agent_contribution a topic history round_num).
Proof. intros w. rewrite get_agent_contribution_eq. eauto. Qed.

Lemma returns_new_list init : returns (new_list init).
Proof. intros w. eexists _, _. reflexivity. Qed.

Lemma returns_modify {W} (f : W → W) : returns (modify f).
Proof. intros w. eexists _, _. reflexivity. Qed.

Lemma returns_run_round_robin agent_types topic history round_num :
  returns (_run_round_robin agent_types topic history round_num).
Proof.
  unfold PartyMode._run_round_robin.
  apply returns_bind; [apply returns_new_list | intros contributions].
  apply returns_bind; [|intros _; apply returns_ret].
  apply returns_for_each. intros a.
  apply returns_bind; [apply returns_get_agent_contribution | intros c].
  apply returns_bind; [apply returns_modify | intros _; apply returns_modify].
Qed.

Lemma returns_run_free_form agent_types topic history round_num :
  returns (_run_free_form agent_types topic history round_num).
Proof.
  unfold PartyMode._run_free_form.
  apply returns_bind; [|intros cs; apply returns_new_list].
  apply returns_map_m. intros a. apply returns_get_agent_contribution.
Qed.

(** The rounds of [run_party_mode], from the list it hands around. *)
Lemma returns_rounds agent_types topic rounds mode history :
  returns
    (for_each (seqZ 1 rounds) (fun round_num =>
       m_bind (if String.eqb mode "round-robin"
               then _run_round_robin agent_types topic history round_num
               else _run_free_form agent_types topic history round_num)
         (fun round_outputs => list_extend history round_outputs))).
Proof.
  apply returns_for_each. intros r.
  apply returns_bind; [|intros out; apply returns_modify].
  destruct (String.eqb mode "round-robin");
    [apply returns_run_round_robin | apply returns_run_free_form].
Qed.

(** The shape of every session: the rounds return, then one synthesis
    invocation is made on the final history, and the result is built from
    what it gives. *)
Lemma run_party_mode_shape agent_types topic rounds mode w :
  ∃ h tr w',
    run_party_mode agent_types topic rounds mode w
    = (Ret (PartyModeResult.mk h (synthesis_of h tr) "success"), w')
    ∧ calls w' = tr ++ [synthesis_call h].
Proof.
  unfold PartyMode.run_party_mode. unfold m_bind at 1. cbn [new_list].
  unfold m_bind at 1.
  destruct (returns_rounds agent_types topic rounds mode (length (heap w))
              {| heap := heap w ++ [[]]; calls := calls w; clock := clock w |})
    as ([] & w1 & ->).
  unfold m_bind at 1. rewrite synthesize_discussion_eq.
  unfold m_bind, list_read, gets, m_ret. cbn.
  eexists _, _, _. split; reflexivity.
Qed.

(** Claim C10.  For every list of roles, topic, number of rounds and mode,
    whatever the agent sessions return or raise (those of the contributions
    and the one of the synthesis), [run_party_mode] returns a result, and the
    status of that result is success: this operation never produces the
    status failed. *)
Theorem run_party_mode_always_success agent_types topic rounds mode w :
  ∃ r w',
    run_party_mode agent_types topic rounds mode w = (Ret r, w')
    ∧ PartyModeResult.status r = "success".
Proof.
  destruct (run_party_mode_shape agent_types topic rounds mode w)
    as (h & tr & w' & -> & _).
  eexists _, _. split; reflexivity.
Qed.



(** ** Reading and writing the heap *)

Lemma read_alloc_0 H a rest cs t :
  read {| heap := H ++ a :: rest; calls := cs; clock := t |} (length H) = a.
Proof.
  unfold read. cbn. rewrite list_lookup_middle by reflexivity. reflexivity.
Qed.

Lemma read_alloc_1 H a b rest cs t :
  read {| heap := H ++ a :: b :: rest; calls := cs; clock := t |}
    (S (length H))
  = b.
Proof.
  unfold read. cbn [heap].
  change (H ++ a :: b :: rest) with (H ++ [a] ++ b :: rest).
  rewrite app_assoc, list_lookup_middle; [reflexivity|].
  rewrite length_app. cbn. lia.
Qed.

Lemma write_alloc_0 (H : list (list AgentContribution.t)) a rest x :
  <[length H := x]> (H ++ a :: rest) = H ++ x :: rest.
Proof.
  rewrite <- (Nat.add_0_r (length H)), insert_app_r. reflexivity.
Qed.

Lemma write_alloc_1 (H : list (list AgentContribution.t)) a b rest x :
  <[S (length H) := x]> (H ++ a :: b :: rest) = H ++ a :: x :: rest.
Proof.
  replace (S (length H)) with (length H + 1) by lia.
  rewrite insert_app_r. reflexivity.
Qed.

Lemma for_each_cons {W A} (x : A) (xs : list A) (body : A → M W unit) w :
  for_each (x :: xs) body w
  = match body x w with
    | (Ret _, w1) => for_each xs body w1
    | (Raise e, w1) => (Raise e, w1)
    end.
Proof. reflexivity. Qed.

(** One round, seen from a heap whose last list is the shared history. *)
Section OneRound.

Variables (topic : string) (round_num : Z).
Variable H : list (list AgentContribution.t).

Lemma get_agent_contribution_framed a hist rest cs t :
  _get_agent_contribution a topic (length H) round_num
    {| heap := H ++ hist :: rest; calls := cs; clock := t |}
  = (Ret (contribution_of a topic hist round_num cs t),
     {| heap := H ++ hist :: rest;
        calls := cs ++ [contribution_call a topic hist round_num];
        clock := S t |}).
Proof.
  rewrite get_agent_contribution_eq, read_alloc_0. reflexivity.
Qed.

(** The body of the loop of [_run_round_robin]: the contribution goes to
    both lists. *)
Lemma round_robin_body_framed a hist contribs cs t :
  m_bind (_get_agent_contribution a topic (length H) round_num)
    (fun contribution =>
       m_bind (list_append (S (length H)) contribution)
         (fun _ => list_append (length H) contribution))
    {| heap := H ++ [hist; contribs]; calls := cs; clock := t |}
  = (Ret tt,
     {| heap := H ++ [hist ++ [contribution_of a topic hist round_num cs t];
                      contribs
                      ++ [contribution_of a topic hist round_num cs t]];
        calls := cs ++ [contribution_call a topic hist round_num];
        clock := S t |}).
Proof.
  unfold m_bind at 1. rewrite get_agent_contribution_framed.
  unfold m_bind, list_append, modify. cbn [heap calls clock].
  rewrite read_alloc_1, write_alloc_1, read_alloc_0, write_alloc_0.
  reflexivity.
Qed.


Lemma run_round_robin_one A hist cs t :
  _run_round_robin [A] topic (length H) round_num
    {| heap := H ++ [hist]; calls := cs; clock := t |}
  = (Ret (S (length H)),
     {| heap := H ++ [hist ++ [contribution_of A topic hist round_num cs t];
                      [contribution_of A topic hist round_num cs t]];
        calls := cs ++ [contribution_call A topic hist round_num];
        clock := S t |}).
Proof.
  unfold PartyMode._run_round_robin.
  unfold m_bind at 1. cbn [new_list heap calls clock].
  rewrite length_app, <- app_assoc. cbn [length app]. rewrite Nat.add_1_r.
  unfold m_bind at 1.
  rewrite for_each_cons, round_robin_body_framed.
  reflexivity.
Qed.


(** [discussion_history.extend(round_outputs)], then the synthesis and the
    result. *)
Lemma finish_session hist outputs cs t :
  m_bind (list_extend (length H) (S (length H)))
    (fun _ =>
       m_bind (_synthesize_discussion (length H))
         (fun synthesis =>
            m_bind (list_read (length H))
              (fun h => m_ret (PartyModeResult.mk h synthesis "success"))))
    {| heap := H ++ [hist; outputs]; calls := cs; clock := t |}
  = (Ret (PartyModeResult.mk (hist ++ outputs)
            (synthesis_of (hist ++ outputs) cs) "success"),
     {| heap := H ++ [hist ++ outputs; outputs];
        calls := cs ++ [synthesis_call (hist ++ outputs)];
        clock := t |}).
Proof.
  unfold m_bind at 1. unfold list_extend, modify. cbn [heap calls clock].
  rewrite read_alloc_0, read_alloc_1, write_alloc_0.
  unfold m_bind at 1. rewrite synthesize_discussion_eq.
  cbn [heap calls clock]. rewrite read_alloc_0.
  unfold m_bind, list_read, gets, m_ret. rewrite read_alloc_0. reflexivity.
Qed.

End OneRound.

Lemma seqZ_1_1 : seqZ 1 1 = [1%Z].
Proof. reflexivity. Qed.

(** A session of one round, from its parts. *)
Lemma run_party_mode_one_round agent_types topic mode w :
  run_party_mode agent_types topic 1 mode w
  = m_bind (if String.eqb mode "round-robin"
            then _run_round_robin agent_types topic (length (heap w)) 1
            else _run_free_form agent_types topic (length (heap w)) 1)
      (fun round_outputs =>
         m_bind (list_extend (length (heap w)) round_outputs)
           (fun _ =>
              m_bind (_synthesize_discussion (length (heap w)))
                (fun synthesis =>
                   m_bind (list_read (length (heap w)))
                     (fun h =>
                        m_ret (PartyModeResult.mk h synthesis "success")))))
      {| heap := heap w ++ [[]]; calls := calls w; clock := clock w |}.
Proof.
  unfold PartyMode.run_party_mode. rewrite seqZ_1_1.
  unfold m_bind, new_list. cbn [for_each]. unfold m_bind, m_ret.
  destruct (String.eqb mode "round-robin").
  - destruct (_run_round_robin agent_types topic (length (heap w)) 1 _)
      as [[out|e] w1]; reflexivity.
  - destruct (_run_free_form agent_types topic (length (heap w)) 1 _)
      as [[out|e] w1]; reflexivity.
Qed.



Lemma round_robin_one_role A topic w :
  let c := contribution_of A topic [] 1 (calls w) (clock w) in
  ∃ w' synthesis,
  run_party_mode [A] topic 1 "round-robin" w
  = (Ret (PartyModeResult.mk [c; c] synthesis "success"), w').
Proof.
  cbn zeta. rewrite run_party_mode_one_round.
  cbn [String.eqb Ascii.eqb Bool.eqb]. unfold m_bind at 1.
  rewrite run_round_robin_one, finish_session.
  eexists _, _. reflexivity.
Qed.

(** ** The length of the lists on the heap *)

Lemma len_write w l l' xs cs t :
  l < length (heap w) →
  len {| heap := <[l := xs]> (heap w); calls := cs; clock := t |} l'
  = if decide (l = l') then length xs else len w l'.
Proof.
  intros Hl. unfold len, read. cbn [heap]. case_decide as Heq.
  - subst. rewrite list_lookup_insert_eq by exact Hl. reflexivity.
  - rewrite list_lookup_insert_ne by exact Heq. reflexivity.
Qed.

Lemma len_alloc w l init cs t :
  l < length (heap w) →
  len {| heap := heap w ++ [init]; calls := cs; clock := t |} l = len w l.
Proof.
  intros Hl. unfold len, read. cbn [heap].
  rewrite lookup_app_l by exact Hl. reflexivity.
Qed.

Lemma len_alloc_new w init cs t :
  len {| heap := heap w ++ [init]; calls := cs; clock := t |} (length (heap w))
  = length init.
Proof.
  unfold len, read. cbn [heap].
  rewrite list_lookup_middle by reflexivity. reflexivity.
Qed.

Section Round.
Variables (topic : string) (history : loc) (round_num : Z).

Lemma round_robin_body_eq contributions agent_type w :
  m_bind (_get_agent_contribution agent_type topic history round_num)
    (fun contribution =>
       m_bind (list_append contributions contribution)
         (fun _ => list_append history contribution)) w
  = (Ret tt,
     let c := contribution_of agent_type topic (read w history) round_num
                (calls w) (clock w) in
     let w1 := {| heap := <[contributions := read w contributions ++ [c]]>
                            (heap w);
                  calls := calls w
                           ++ [contribution_call agent_type topic
                                 (read w history) round_num];
                  clock := S (clock w) |} in
     {| heap := <[history := read w1 history ++ [c]]> (heap w1);
        calls := calls w1; clock := clock w1 |}).
Proof.
  unfold m_bind. rewrite get_agent_contribution_eq. reflexivity.
Qed.

Lemma round_robin_loop_len contributions : ∀ agent_types w,
  history < length (heap w) → contributions < length (heap w) →
  history ≠ contributions →
  ∃ w',
    for_each agent_types (fun agent_type =>
      m_bind (_get_agent_contribution agent_type topic history round_num)
        (fun contribution =>
           m_bind (list_append contributions contribution)
             (fun _ => list_append history contribution))) w
    = (Ret tt, w')
    ∧ length (heap w') = length (heap w)
    ∧ len w' history = len w history + length agent_types
    ∧ len w' contributions = len w contributions + length agent_types.
Proof.
  induction agent_types as [|a agent_types IH]; intros w Hh Hc Hne.
  - exists w. cbn. repeat split; lia.
  - rewrite for_each_cons, round_robin_body_eq. cbn zeta.
    match goal with |- context [for_each _ _ ?w1] =>
      destruct (IH w1) as (w' & -> & Hlen & Hlh & Hlc)
    end.
    + cbn [heap]. rewrite !length_insert. exact Hh.
    + cbn [heap]. rewrite !length_insert. exact Hc.
    + exact Hne.
    + exists w'. split; [reflexivity|]. cbn [heap] in Hlen.
      rewrite !length_insert in Hlen. split; [exact Hlen|].
      rewrite Hlh, Hlc.
      assert (Hne' : contributions ≠ history)
        by (intros ->; apply Hne; reflexivity).
      unfold len, read. cbn [heap calls clock length].
      rewrite list_lookup_insert_eq by (rewrite length_insert; exact Hh).
      rewrite (list_lookup_insert_ne _ contributions history) by exact Hne'.
      rewrite (list_lookup_insert_ne _ history contributions) by exact Hne.
      rewrite list_lookup_insert_eq by exact Hc.
      rewrite !length_app. cbn [length]. split; lia.
Qed.

Lemma run_round_robin_len agent_types w :
  history < length (heap w) →
  ∃ contributions w',
    _run_round_robin agent_types topic history round_num w
    = (Ret contributions, w')
    ∧ contributions < length (heap w') ∧ history ≠ contributions
    ∧ length (heap w) ≤ length (heap w')
    ∧ len w' history = len w history + length agent_types
    ∧ len w' contributions = length agent_types.
Proof.
  intros Hh. unfold PartyMode._run_round_robin.
  unfold m_bind at 1. cbn [new_list]. unfold m_bind at 1.
  match goal with |- context [for_each _ _ ?w1] =>
    destruct (round_robin_loop_len (length (heap w)) agent_types w1)
      as (w' & -> & Hlen & Hlh & Hlc)
  end.
  - cbn [heap]. rewrite length_app. cbn. lia.
  - cbn [heap]. rewrite length_app. cbn. lia.
  - lia.
  - exists (length (heap w)), w'. cbn [m_ret]. split; [reflexivity|].
    cbn [heap] in Hlen. rewrite length_app in Hlen. cbn in Hlen.
    rewrite len_alloc in Hlh by exact Hh. rewrite len_alloc_new in Hlc.
    cbn in Hlc. repeat split; try lia; assumption.
Qed.

Lemma gather_len : ∀ agent_types w,
  ∃ cs w',
    map_m (fun agent_type =>
             _get_agent_contribution agent_type topic history round_num)
      agent_types w
    = (Ret cs, w')
    ∧ heap w' = heap w ∧ length cs = length agent_types.
Proof.
  induction agent_types as [|a agent_types IH]; intros w.
  - exists [], w. cbn. auto.
  - cbn [map_m]. unfold m_bind at 1. rewrite get_agent_contribution_eq.
    unfold m_bind at 1.
    match goal with |- context [map_m _ _ ?w1] =>
      destruct (IH w1) as (cs & w' & -> & Hheap & Hlen)
    end.
    eexists _, w'. cbn [m_ret]. split; [reflexivity|]. cbn in *.
    split; [exact Hheap|]. lia.
Qed.

Lemma run_free_form_len agent_types w :
  history < length (heap w) →
  ∃ contributions w',
    _run_free_form agent_types topic history round_num w
    = (Ret contributions, w')
    ∧ contributions < length (heap w') ∧ history ≠ contributions
    ∧ length (heap w) ≤ length (heap w')
    ∧ len w' history = len w history
    ∧ len w' contributions = length agent_types.
Proof.
  intros Hh. unfold PartyMode._run_free_form. unfold m_bind.
  destruct (gather_len agent_types w) as (cs & w1 & -> & Hheap & Hlen).
  exists (length (heap w1)),
    {| heap := heap w1 ++ [cs]; calls := calls w1; clock := clock w1 |}.
  split; [reflexivity|]. cbn [heap]. rewrite length_app, Hheap. cbn [length].
  repeat split; try lia.
  - rewrite <- Hheap. rewrite len_alloc by (rewrite Hheap; exact Hh).
    unfold len, read. rewrite Hheap. reflexivity.
  - rewrite <- Hheap, len_alloc_new. exact Hlen.
Qed.

End Round.

Lemma rounds_len agent_types topic mode history : ∀ round_nums w,
  history < length (heap w) →
  ∃ w',
    for_each round_nums (fun round_num =>
       m_bind (if String.eqb mode "round-robin"
               then _run_round_robin agent_types topic history round_num
               else _run_free_form agent_types topic history round_num)
         (fun round_outputs => list_extend history round_outputs)) w
    = (Ret tt, w')
    ∧ len w' history
      = len w history
        + length round_nums * (copies mode * length agent_types).
Proof.
  induction round_nums as [|r round_nums IH]; intros w Hh.
  - exists w. cbn. split; [reflexivity|lia].
  - assert (∃ contributions w1,
      (if String.eqb mode "round-robin"
       then _run_round_robin agent_types topic history r
       else _run_free_form agent_types topic history r) w
      = (Ret contributions, w1)
      ∧ contributions < length (heap w1) ∧ history ≠ contributions
      ∧ length (heap w) ≤ length (heap w1)
      ∧ len w1 history + len w1 contributions
        = len w history + copies mode * length agent_types)
      as (contributions & w1 & Hrun & Hc & Hne & Hle & Hlen).
    { unfold copies. destruct (String.eqb mode "round-robin").
      - destruct (run_round_robin_len topic history r agent_types w Hh)
          as (c & w1 & -> & ? & ? & ? & Hl1 & Hl2).
        exists c, w1. repeat split; auto. lia.
      - destruct (run_free_form_len topic history r agent_types w Hh)
          as (c & w1 & -> & ? & ? & ? & Hl1 & Hl2).
        exists c, w1. repeat split; auto. lia. }
    destruct (IH {| heap := <[history := read w1 history
                                          ++ read w1 contributions]> (heap w1);
                    calls := calls w1; clock := clock w1 |})
      as (w' & Hrest & Hlen').
    { cbn [heap]. rewrite length_insert. lia. }
    exists w'. split.
    + rewrite for_each_cons. unfold m_bind at 1. rewrite Hrun.
      unfold list_extend, modify. exact Hrest.
    + rewrite Hlen'. rewrite len_write by lia.
      rewrite decide_True by reflexivity.
      rewrite length_app. fold (len w1 history) (len w1 contributions).
      cbn [length]. lia.
Qed.

(** Every session returns, with a history of [copies mode] entries per role
    and round. *)
Lemma discussion_history_length agent_types topic rounds mode w :
  ∃ r w',
    run_party_mode agent_types topic rounds mode w = (Ret r, w')
    ∧ length (PartyModeResult.discussion_history r)
      = copies mode * (Z.to_nat rounds * length agent_types).
Proof.
  unfold PartyMode.run_party_mode. unfold m_bind at 1. cbn [new_list].
  unfold m_bind at 1.
  match goal with |- context [for_each _ _ ?w1] =>
    destruct (rounds_len agent_types topic mode (length (heap w))
                (seqZ 1 rounds) w1) as (w' & -> & Hlen)
  end.
  { cbn [heap]. rewrite length_app. cbn. lia. }
  unfold m_bind at 1. rewrite synthesize_discussion_eq.
  unfold m_bind, list_read, gets, m_ret. cbn [heap calls clock].
  eexists _, _. split; [reflexivity|]. cbn [PartyModeResult.discussion_history].
  match goal with |- length (read ?w2 _) = _ =>
    change (length (read w2 (length (heap w)))) with (len w' (length (heap w)))
  end.
  rewrite Hlen, len_alloc_new, length_seqZ. cbn [length]. lia.
Qed.

(** Claim C6: what the code returns where the claim asks for one entry per
    role and round.  A session of [rounds] rounds over the roles
    [agent_types] returns a history of [rounds * len(agent_types)] entries in
    free-form mode, and of twice as many in round-robin mode, where every
    contribution is appended to the shared list by [_run_round_robin] and
    then added again by [run_party_mode]: with one role and one round the
    history is the one contribution, twice. *)
Theorem round_robin_history_repeats agent_types topic rounds w :
  (∃ r w',
     run_party_mode agent_types topic rounds "free-form" w = (Ret r, w')
     ∧ length (PartyModeResult.discussion_history r)
       = Z.to_nat rounds * length agent_types)
  ∧ (∃ r w',
       run_party_mode agent_types topic rounds "round-robin" w = (Ret r, w')
       ∧ length (PartyModeResult.discussion_history r)
         = 2 * (Z.to_nat rounds * length agent_types))
  ∧ (∀ A, ∃ c r w',
       run_party_mode [A] topic 1 "round-robin" w = (Ret r, w')
       ∧ PartyModeResult.discussion_history r = [c; c]).
Proof.
  split; [|split].
  - destruct (discussion_history_length agent_types topic rounds
                "free-form" w) as (r & w' & Hrun & Hlen).
    exists r, w'. split; [exact Hrun|]. rewrite Hlen.
    cbn [copies String.eqb Ascii.eqb Bool.eqb]. lia.
  - destruct (discussion_history_length agent_types topic rounds
                "round-robin" w) as (r & w' & Hrun & Hlen).
    exists r, w'. split; [exact Hrun|]. rewrite Hlen. reflexivity.
  - intros A. destruct (round_robin_one_role A topic w)
      as (w' & synthesis & Hrun).
    eexists _, _, w'. split; [exact Hrun|]. reflexivity.
Qed.

(** ** What a session logs *)


















(** ** Who speaks when *)

Lemma read_write w l l' xs cs t :
  l < length (heap w) →
  read {| heap := <[l := xs]> (heap w); calls := cs; clock := t |} l'
  = if decide (l = l') then xs else read w l'.
Proof.
  intros Hl. unfold read. cbn [heap]. case_decide as Heq.
  - subst. rewrite list_lookup_insert_eq by exact Hl. reflexivity.
  - rewrite list_lookup_insert_ne by exact Heq. reflexivity.
Qed.

Lemma read_alloc w l init cs t :
  l < length (heap w) →
  read {| heap := heap w ++ [init]; calls := cs; clock := t |} l = read w l.
Proof.
  intros Hl. unfold read. cbn [heap].
  rewrite lookup_app_l by exact Hl. reflexivity.
Qed.

Lemma read_alloc_new w init cs t :
  read {| heap := heap w ++ [init]; calls := cs; clock := t |}
    (length (heap w))
  = init.
Proof.
  unfold read. cbn [heap].
  rewrite list_lookup_middle by reflexivity. reflexivity.
Qed.

Section RoundContents.
Variables (topic : string) (history : loc) (round_num : Z).

Lemma round_robin_loop_reads contributions : ∀ agent_types w,
  history < length (heap w) → contributions < length (heap w) →
  history ≠ contributions →
  ∃ w' cs,
    for_each agent_types (fun agent_type =>
      m_bind (_get_agent_contribution agent_type topic history round_num)
        (fun contribution =>
           m_bind (list_append contributions contribution)
             (fun _ => list_append history contribution))) w
    = (Ret tt, w')
    ∧ length (heap w') = length (heap w)
    ∧ read w' history = read w history ++ cs
    ∧ read w' contributions = read w contributions ++ cs
    ∧ speakers cs = round_speakers agent_types round_num
    ∧ length (calls w') = length (calls w) + length agent_types.
Proof.
  induction agent_types as [|a agent_types IH]; intros w Hh Hc Hne.
  - exists w, []. cbn. rewrite !app_nil_r. repeat split; lia.
  - rewrite for_each_cons, round_robin_body_eq. cbn zeta.
    match goal with |- context [for_each _ _ ?w1] =>
      destruct (IH w1) as (w' & cs & -> & Hlen & Hrh & Hrc & Hsp & Hcalls)
    end.
    + cbn [heap]. rewrite !length_insert. exact Hh.
    + cbn [heap]. rewrite !length_insert. exact Hc.
    + exact Hne.
    + exists w',
        (contribution_of a topic (read w history) round_num (calls w)
           (clock w) :: cs).
      split; [reflexivity|]. cbn [heap calls clock] in Hlen, Hrh, Hrc, Hcalls.
      rewrite !length_insert in Hlen. split; [exact Hlen|].
      assert (Hne' : contributions ≠ history)
        by (intros ->; apply Hne; reflexivity).
      rewrite Hrh, Hrc. clear Hrh Hrc.
      unfold read. cbn [heap calls clock].
      repeat first
        [ rewrite list_lookup_insert_eq
            by (rewrite ?length_insert; assumption)
        | rewrite list_lookup_insert_ne by assumption ].
      rewrite <- !app_assoc. cbn [app].
      split; [reflexivity|]. split; [reflexivity|].
      split.
      * unfold speakers, round_speakers in *. cbn [fmap list_fmap].
        fold (speakers cs). unfold speakers. rewrite Hsp. reflexivity.
      * rewrite Hcalls, length_app. cbn [length]. lia.
Qed.

Lemma run_round_robin_reads agent_types w :
  history < length (heap w) →
  ∃ contributions w' cs,
    _run_round_robin agent_types topic history round_num w
    = (Ret contributions, w')
    ∧ contributions < length (heap w') ∧ history ≠ contributions
    ∧ length (heap w) ≤ length (heap w')
    ∧ read w' history = read w history ++ cs
    ∧ read w' contributions = cs
    ∧ speakers cs = round_speakers agent_types round_num
    ∧ length (calls w') = length (calls w) + length agent_types.
Proof.
  intros Hh. unfold PartyMode._run_round_robin.
  unfold m_bind at 1. cbn [new_list]. unfold m_bind at 1.
  match goal with |- context [for_each _ _ ?w1] =>
    destruct (round_robin_loop_reads (length (heap w)) agent_types w1)
      as (w' & cs & -> & Hlen & Hrh & Hrc & Hsp & Hcalls)
  end.
  - cbn [heap]. rewrite length_app. cbn. lia.
  - cbn [heap]. rewrite length_app. cbn. lia.
  - lia.
  - exists (length (heap w)), w', cs. cbn [m_ret]. split; [reflexivity|].
    cbn [heap calls] in Hlen, Hcalls. rewrite length_app in Hlen.
    cbn in Hlen.
    rewrite read_alloc in Hrh by exact Hh. rewrite read_alloc_new in Hrc.
    repeat split; try lia; assumption.
Qed.

Lemma gather_reads : ∀ agent_types w,
  ∃ cs w',
    map_m (fun agent_type =>
             _get_agent_contribution agent_type topic history round_num)
      agent_types w
    = (Ret cs, w')
    ∧ heap w' = heap w
    ∧ speakers cs = round_speakers agent_types round_num
    ∧ length (calls w') = length (calls w) + length agent_types.
Proof.
  induction agent_types as [|a agent_types IH]; intros w.
  - exists [], w. cbn. repeat split; lia.
  - cbn [map_m]. unfold m_bind at 1. rewrite get_agent_contribution_eq.
    unfold m_bind at 1.
    match goal with |- context [map_m _ _ ?w1] =>
      destruct (IH w1) as (cs & w' & -> & Hheap & Hsp & Hcalls)
    end.
    eexists _, w'. cbn [m_ret]. split; [reflexivity|].
    cbn [heap calls] in *. split; [exact Hheap|]. split.
    + unfold speakers, round_speakers in *. cbn [fmap list_fmap].
      rewrite Hsp. reflexivity.
    + rewrite Hcalls, length_app. cbn [length]. lia.
Qed.

Lemma run_free_form_reads agent_types w :
  history < length (heap w) →
  ∃ contributions w' cs,
    _run_free_form agent_types topic history round_num w
    = (Ret contributions, w')
    ∧ contributions < length (heap w') ∧ history ≠ contributions
    ∧ length (heap w) ≤ length (heap w')
    ∧ read w' history = read w history
    ∧ read w' contributions = cs
    ∧ speakers cs = round_speakers agent_types round_num
    ∧ length (calls w') = length (calls w) + length agent_types.
Proof.
  intros Hh. unfold PartyMode._run_free_form. unfold m_bind.
  destruct (gather_reads agent_types w) as (cs & w1 & -> & Hheap & Hsp & Hc).
  exists (length (heap w1)),
    {| heap := heap w1 ++ [cs]; calls := calls w1; clock := clock w1 |}, cs.
  split; [reflexivity|]. cbn [heap calls]. rewrite length_app, Hheap.
  cbn [length]. repeat split; try lia; try assumption.
  - rewrite <- Hheap. rewrite read_alloc by (rewrite Hheap; exact Hh).
    unfold read. rewrite Hheap. reflexivity.
  - rewrite <- Hheap. apply read_alloc_new.
Qed.

End RoundContents.

Lemma rounds_reads agent_types topic mode history : ∀ round_nums w,
  history < length (heap w) →
  ∃ w' per_round,
    for_each round_nums (fun round_num =>
       m_bind (if String.eqb mode "round-robin"
               then _run_round_robin agent_types topic history round_num
               else _run_free_form agent_types topic history round_num)
         (fun round_outputs => list_extend history round_outputs)) w
    = (Ret tt, w')
    ∧ read w' history
      = read w history
        ++ mjoin ((λ cs, mjoin (replicate (copies mode) cs)) <$> per_round)
    ∧ Forall2 (λ round_num cs,
                 speakers cs = round_speakers agent_types round_num)
        round_nums per_round
    ∧ length (calls w')
      = length (calls w) + length round_nums * length agent_types.
Proof.
  induction round_nums as [|r round_nums IH]; intros w Hh.
  - exists w, []. cbn. rewrite app_nil_r.
    split; [reflexivity|]. split; [reflexivity|]. split; [constructor|lia].
  - assert (∃ contributions w1 cs,
      (if String.eqb mode "round-robin"
       then _run_round_robin agent_types topic history r
       else _run_free_form agent_types topic history r) w
      = (Ret contributions, w1)
      ∧ contributions < length (heap w1) ∧ history ≠ contributions
      ∧ length (heap w) ≤ length (heap w1)
      ∧ read w1 history ++ read w1 contributions
        = read w history ++ mjoin (replicate (copies mode) cs)
      ∧ speakers cs = round_speakers agent_types r
      ∧ length (calls w1) = length (calls w) + length agent_types)
      as (contributions & w1 & cs & Hrun & Hc & Hne & Hle & Hread & Hsp
          & Hcalls).
    { unfold copies. destruct (String.eqb mode "round-robin").
      - destruct (run_round_robin_reads topic history r agent_types w Hh)
          as (c & w1 & cs & -> & ? & ? & ? & Hr1 & Hr2 & ? & ?).
        exists c, w1, cs. repeat split; auto.
        rewrite Hr1, Hr2. cbn. rewrite app_nil_r, app_assoc. reflexivity.
      - destruct (run_free_form_reads topic history r agent_types w Hh)
          as (c & w1 & cs & -> & ? & ? & ? & Hr1 & Hr2 & ? & ?).
        exists c, w1, cs. repeat split; auto.
        rewrite Hr1, Hr2. cbn. rewrite app_nil_r. reflexivity. }
    destruct (IH {| heap := <[history := read w1 history
                                          ++ read w1 contributions]> (heap w1);
                    calls := calls w1; clock := clock w1 |})
      as (w' & per_round & Hrest & Hread' & Hall & Hcalls').
    { cbn [heap]. rewrite length_insert. lia. }
    exists w', (cs :: per_round). split.
    + rewrite for_each_cons. unfold m_bind at 1. rewrite Hrun.
      unfold list_extend, modify. exact Hrest.
    + rewrite Hread'. rewrite read_write by lia.
      rewrite decide_True by reflexivity. rewrite Hread.
      cbn [fmap list_fmap mjoin list_join]. rewrite <- !app_assoc.
      split; [reflexivity|]. split; [constructor; assumption|].
      rewrite Hcalls'. cbn [calls length]. rewrite Hcalls. lia.
Qed.

Lemma run_party_mode_contents agent_types topic rounds mode w :
  ∃ r w' per_round,
    run_party_mode agent_types topic rounds mode w = (Ret r, w')
    ∧ PartyModeResult.discussion_history r
      = mjoin ((λ cs, mjoin (replicate (copies mode) cs)) <$> per_round)
    ∧ Forall2 (λ round_num cs,
                 speakers cs = round_speakers agent_types round_num)
        (seqZ 1 rounds) per_round
    ∧ length (calls w')
      = length (calls w) + Z.to_nat rounds * length agent_types + 1.
Proof.
  unfold PartyMode.run_party_mode. unfold m_bind at 1. cbn [new_list].
  unfold m_bind at 1.
  match goal with |- context [for_each _ _ ?w1] =>
    destruct (rounds_reads agent_types topic mode (length (heap w))
                (seqZ 1 rounds) w1)
      as (w' & per_round & -> & Hread & Hall & Hcalls)
  end.
  { cbn [heap]. rewrite length_app. cbn. lia. }
  unfold m_bind at 1. rewrite synthesize_discussion_eq.
  unfold m_bind, list_read, gets, m_ret. cbn [heap calls clock].
  eexists _, _, per_round. split; [reflexivity|].
  cbn [PartyModeResult.discussion_history calls].
  rewrite read_alloc_new in Hread. cbn [app] in Hread.
  split; [exact Hread|]. split; [exact Hall|].
  rewrite length_app, Hcalls, length_seqZ. cbn [calls length]. lia.
Qed.

(** The history a session returns, entry by entry.  It holds the rounds
    1 to [rounds] in order; the entries of a round are the contributions of
    the roles, in the order the roles were given, each under its agent type,
    the name of its persona and the number of the round; in free-form mode
    this block stands once, in round-robin mode twice in a row.  In either
    mode the session runs one agent session per role and round, and one for
    the synthesis. *)
Theorem history_is_the_rounds_in_order agent_types topic rounds mode w :
  ∃ r w' per_round,
    run_party_mode agent_types topic rounds mode w = (Ret r, w')
    ∧ PartyModeResult.discussion_history r
      = mjoin ((λ cs, mjoin (replicate (copies mode) cs)) <$> per_round)
    ∧ Forall2 (λ round_num cs,
                 speakers cs = round_speakers agent_types round_num)
        (seqZ 1 rounds) per_round
    ∧ length (calls w')
      = length (calls w) + Z.to_nat rounds * length agent_types + 1.
Proof. apply run_party_mode_contents. Qed.

(** ** What a contribution holds *)





(** ** The agent types of a session *)



(** The recommended teams are teams the orchestrator knows: for every task
    type, also an unknown one, the recommendation is not empty, names no
    role twice, and every role in it has a persona and an agent type of its
    own; and the table of personas and the table of agent types cover the
    same roles. *)
Theorem recommended_agents_are_known task_type :
  get_recommended_agents task_type ≠ []
  ∧ NoDup (get_recommended_agents task_type)
  ∧ Forall (λ a, is_Some (AGENT_PERSONAS a) ∧ is_Some (agent_type_mapping a))
      (get_recommended_agents task_type)
  ∧ ∀ a, is_Some (AGENT_PERSONAS a) ↔ is_Some (agent_type_mapping a).
Proof.
  split; [|split; [|split]].
  - unfold get_recommended_agents.
    repeat (destruct (String.eqb task_type _); [discriminate|]).
    discriminate.
  - unfold get_recommended_agents.
    repeat (destruct (String.eqb task_type _);
            [apply (bool_decide_unpack _); vm_compute; exact I|]).
    apply (bool_decide_unpack _). vm_compute. exact I.
  - unfold get_recommended_agents.
    repeat (destruct (String.eqb task_type _);
            [repeat constructor; eexists; reflexivity|]).
    repeat constructor; eexists; reflexivity.
  - intros a. unfold AGENT_PERSONAS, agent_type_mapping.
    repeat (destruct (String.eqb a _);
            [split; intros _; eexists; reflexivity|]).
    split; intros [x Hx]; discriminate.
Qed.

(** ** The transcript *)

Lemma group_by_round_lookup (h : list AgentContribution.t) (r : Z) :
  group_by_round h !! r
  = match filter (λ c, AgentContribution.round_num c = r) h with
    | [] => None
    | cs => Some cs
    end.
Proof.
  unfold group_by_round.
  induction h as [|c h IH] using rev_ind; [apply lookup_empty|].
  rewrite foldl_app, filter_app. cbn [foldl].
  rewrite filter_cons, filter_nil.
  destruct (decide (AgentContribution.round_num c = r)) as [Hr|Hr].
  - subst r. rewrite lookup_insert_eq, IH.
    destruct (filter _ h); reflexivity.
  - rewrite lookup_insert_ne by exact Hr. rewrite app_nil_r. exact IH.
Qed.

(** The transcript handed to the synthesis, without the dictionary: after
    the title, one section per round that has a contribution, the rounds in
    ascending order and each once; a section lists the contributions of its
    round in the order of the history, every one of them, also those the
    history holds twice. *)
Theorem transcript_groups_by_round (h : list AgentContribution.t) :
  ∃ rounds,
    transcript_lines h
    = ["# Multi-Agent Discussion Synthesis"; ""]
      ++ mjoin ((λ r,
                   ["## Round " +:+ pretty r; ""]
                   ++ mjoin ((λ c,
                                ["**" +:+ AgentContribution.agent_name c
                                 +:+ " (" +:+ AgentContribution.agent_type c
                                 +:+ "):** " +:+ AgentContribution.content c;
                                 ""])
                             <$> filter
                                   (λ c, AgentContribution.round_num c = r) h))
                <$> rounds)
    ∧ StronglySorted Z.le rounds
    ∧ NoDup rounds
    ∧ ∀ r, r ∈ rounds ↔ ∃ c, c ∈ h ∧ AgentContribution.round_num c = r.
Proof.
  exists (merge_sort Z.le (map_to_list (group_by_round h)).*1).
  split; [|split; [|split]].
  - unfold transcript_lines. cbn zeta. f_equal. f_equal.
    apply list_fmap_ext. intros _ r _. f_equal. f_equal. f_equal.
    rewrite group_by_round_lookup. destruct (filter _ h); reflexivity.
  - apply StronglySorted_merge_sort; apply _.
  - rewrite merge_sort_Permutation. apply NoDup_fst_map_to_list.
  - intros r. rewrite merge_sort_Permutation.
    rewrite list_elem_of_fmap. split.
    + intros ([r' cs] & -> & Hin). cbn.
      apply elem_of_map_to_list in Hin.
      rewrite group_by_round_lookup in Hin.
      destruct (filter _ h) as [|c l] eqn:E; [discriminate|].
      assert (Hc : c ∈ filter (λ c, AgentContribution.round_num c = r') h)
        by (rewrite E; left).
      apply list_elem_of_filter in Hc as [Hr Hc]. eauto.
    + intros (c & Hc & Hr).
      assert (Hin : c ∈ filter (λ c, AgentContribution.round_num c = r) h)
        by (apply list_elem_of_filter; auto).
      destruct (filter (λ c, AgentContribution.round_num c = r) h)
        as [|c0 l] eqn:E; [inversion Hin|].
      exists (r, c0 :: l). split; [reflexivity|].
      apply elem_of_map_to_list. rewrite group_by_round_lookup, E.
      reflexivity.
Qed.

End WithAgent.


End PartyModeFacts.

(** * Facts about the front-matter parser *)

Module FrontmatterFacts.
Import Frontmatter.

Lemma prefix_nil s : String.prefix "" s = true.
Proof. destruct s; reflexivity. Qed.

Lemma prefix_cons a p c s :
  String.prefix (String a p) (String c s)
  = if Ascii.ascii_dec a c then String.prefix p s else false.
Proof. reflexivity. Qed.

Lemma append_cons c s t : String c s +:+ t = String c (s +:+ t).
Proof. reflexivity. Qed.

Lemma append_nil t : "" +:+ t = t.
Proof. reflexivity. Qed.

(** Whether a string starts with the marker depends on its first three
    characters only. *)
Lemma prefix_first_three b body rest :
  String.prefix "---" (String b (body +:+ "--"))
  = String.prefix "---" (String b (body +:+ "---" +:+ rest)).
Proof.
  destruct body as [|x [|y body]];
    rewrite ?append_cons, ?append_nil, !prefix_cons, ?prefix_nil;
    reflexivity.
Qed.

Lemma prefix_split s :
  String.prefix "---" s = true → ∃ rest, s = "---" +:+ rest.
Proof.
  intros Hp.
  destruct s as [|a [|b [|c s3]]]; try discriminate;
    rewrite !prefix_cons in Hp;
    repeat match type of Hp with
           | context [Ascii.ascii_dec ?x ?y] =>
               destruct (Ascii.ascii_dec x y); try discriminate
           end.
  subst. exists s3. reflexivity.
Qed.

Lemma prefix_marker rest : String.prefix "---" ("---" +:+ rest) = true.
Proof.
  rewrite !append_cons, append_nil, !prefix_cons, prefix_nil. reflexivity.
Qed.

Lemma index_after_marker rest :
  String.index 3 "---" ("---" +:+ rest)
  = match String.index 0 "---" rest with
    | Some n => Some (3 + n)
    | None => None
    end.
Proof.
  rewrite !append_cons, append_nil. cbn [String.index]. destruct (String.index 0 "---" rest); reflexivity.
Qed.

Lemma substring_app body : ∀ rest,
  String.substring 0 (String.length body) (body +:+ rest) = body.
Proof.
  induction body as [|c body IH]; intros rest.
  - rewrite append_nil. destruct rest; reflexivity.
  - rewrite append_cons. cbn [String.length String.substring].
    rewrite IH. reflexivity.
Qed.

Lemma index_cons b s :
  String.index 0 "---" (String b s)
  = if String.prefix "---" (String b s) then Some 0
    else match String.index 0 "---" s with
         | Some n => Some (S n)
         | None => None
         end.
Proof. reflexivity. Qed.

(** The closing marker is found right after a body that holds none. *)
Lemma index_after_body body rest :
  no_marker_in body →
  String.index 0 "---" (body +:+ "---" +:+ rest) = Some (String.length body).
Proof.
  unfold no_marker_in. induction body as [|b body IH]; intros Hno.
  - rewrite append_nil, !append_cons, append_nil, index_cons, !prefix_cons,
      prefix_nil.
    reflexivity.
  - change (String b body +:+ "--") with (String b (body +:+ "--")) in Hno.
    change (String b body +:+ "---" +:+ rest)
      with (String b (body +:+ "---" +:+ rest)).
    rewrite index_cons in *. rewrite <- prefix_first_three.
    destruct (String.prefix "---" (String b (body +:+ "--")));
      [discriminate|].
    destruct (String.index 0 "---" (body +:+ "--")) eqn:E; [discriminate|].
    rewrite IH by reflexivity. reflexivity.
Qed.

(** Where the marker is found, the text before it holds none. *)
Lemma index_split s : ∀ e,
  String.index 0 "---" s = Some e →
  ∃ body rest, s = body +:+ "---" +:+ rest ∧ String.length body = e
               ∧ no_marker_in body.
Proof.
  unfold no_marker_in. induction s as [|b s IH]; intros e He.
  - discriminate.
  - rewrite index_cons in He.
    destruct (String.prefix "---" (String b s)) eqn:Hp.
    + injection He as <-. apply prefix_split in Hp as [rest ->].
      exists "", rest. repeat split.
    + destruct (String.index 0 "---" s) as [n|] eqn:E; [|discriminate].
      injection He as <-.
      destruct (IH n eq_refl) as (body & rest & -> & Hlen & Hno).
      exists (String b body), rest. cbn [String.length]. rewrite Hlen.
      split; [reflexivity|]. split; [reflexivity|].
      change (String b body +:+ "--") with (String b (body +:+ "--")).
      rewrite index_cons, prefix_first_three with (rest := rest).
      change (String b (body +:+ "---" +:+ rest))
        with (String b (body +:+ "---" +:+ rest)) in Hp.
      rewrite Hp, Hno. reflexivity.
Qed.

Section WithParser.

Variable Value : Type.
Variable yaml_safe_load : string -> outcome Value.
Variable truthy : Value -> bool.
Variable empty_dict : Value.

Abbreviation _parse_frontmatter :=
  (Frontmatter._parse_frontmatter Value yaml_safe_load truthy empty_dict).
Abbreviation safe_load_or_empty :=
  (Frontmatter.safe_load_or_empty Value yaml_safe_load truthy empty_dict).

(** A file that opens with the marker, holds a body without marker and then
    the marker again: the parser hands the stripped body to YAML, whatever
    follows the closing marker. *)
Theorem front_matter_of_a_delimited_file content body rest :
  content = "---" +:+ body +:+ "---" +:+ rest →
  no_marker_in body →
  _parse_frontmatter content = safe_load_or_empty (PartyMode.strip body).
Proof.
  intros -> Hno. unfold Frontmatter._parse_frontmatter.
  rewrite prefix_marker. cbn [negb]. rewrite index_after_marker, (index_after_body _ _ Hno).
  replace (3 + String.length body - 3) with (String.length body) by lia.
  change (String.substring 3 (String.length body)
            ("---" +:+ body +:+ "---" +:+ rest))
    with (String.substring 0 (String.length body) (body +:+ "---" +:+ rest)).
  rewrite substring_app. reflexivity.
Qed.

(** Every file is read in one of two ways: either the parser returns the
    empty dictionary, or the file opens with the marker and the text up to
    the first later marker, stripped, is what YAML is given.  The closing
    marker is the first occurrence of three dashes anywhere after the
    opening one, not only at the start of a line. *)
Theorem front_matter_ends_at_first_marker content :
  _parse_frontmatter content = empty_dict
  ∨ ∃ body rest,
      content = "---" +:+ body +:+ "---" +:+ rest
      ∧ no_marker_in body
      ∧ _parse_frontmatter content = safe_load_or_empty (PartyMode.strip body).
Proof.
  destruct (String.prefix "---" content) eqn:Hp.
  - apply prefix_split in Hp as [c1 ->].
    destruct (String.index 0 "---" c1) as [e|] eqn:He.
    + right. destruct (index_split c1 e He) as (body & rest & -> & Hlen & Hno).
      exists body, rest. split; [reflexivity|]. split; [exact Hno|].
      unfold Frontmatter._parse_frontmatter.
      rewrite prefix_marker. cbn [negb]. rewrite index_after_marker, He, <- Hlen.
      replace (3 + String.length body - 3) with (String.length body) by lia.
      change (String.substring 3 (String.length body)
                ("---" +:+ body +:+ "---" +:+ rest))
        with (String.substring 0 (String.length body)
                (body +:+ "---" +:+ rest)).
      rewrite substring_app. reflexivity.
    + left. unfold Frontmatter._parse_frontmatter.
      rewrite index_after_marker, He.
      destruct (negb _); reflexivity.
  - left. unfold Frontmatter._parse_frontmatter. rewrite Hp. reflexivity.
Qed.

End WithParser.

Lemma front_matter_witness :
  Frontmatter._parse_frontmatter (option string) (λ s, Ret (Some s))
    (λ v, bool_decide (v ≠ None)) None
    ("---" +:+ (nl +:+ "name: create-prd" +:+ nl) +:+ "---" +:+ (nl +:+ "# PRD"))
  = Frontmatter.safe_load_or_empty (option string) (λ s, Ret (Some s))
      (λ v, bool_decide (v ≠ None)) None
      (PartyMode.strip (nl +:+ "name: create-prd" +:+ nl)).
Proof.
  apply (front_matter_of_a_delimited_file (option string) (λ s, Ret (Some s))
           (λ v, bool_decide (v ≠ None)) None
           ("---" +:+ (nl +:+ "name: create-prd" +:+ nl) +:+ "---"
            +:+ (nl +:+ "# PRD"))
           (nl +:+ "name: create-prd" +:+ nl) (nl +:+ "# PRD")).
  - reflexivity.
  - vm_compute. reflexivity.
Defined.

End FrontmatterFacts.
